(** * Discord outbound adapter: webhook transport, agent identity, delivery
      orchestration

    Shallow embedding of
      - [src/discord/send.webhook.ts]   (webhook transport),
      - the agent-identity module        (IDENTITY.md parsing, display identity),
      - the Discord outbound adapter     (webhook / bot-API selection),
    followed by the properties of the specification that concern them.

    JavaScript strings are sequences of UTF-16 code units; they are modelled
    as [list N].  Optional values ([T | undefined], [T | null]) are [option T].
    Asynchronous functions that perform network calls are written in a small
    trace-and-error monad: a computation receives the trace of what happened
    so far, and returns either a thrown error or a value, with the extended
    trace.  A thrown error keeps the trace, so that what was already sent
    when a call fails stays visible. *)

From Stdlib Require Import List NArith PeanoNat Bool String Ascii Lia.
Import ListNotations.
Local Open Scope N_scope.

(* ================================================================== *)
(** * JavaScript strings *)
(* ================================================================== *)

Module JS.

(** One UTF-16 code unit. *)
Definition char16 := N.
Definition str := list char16.

(** An ASCII literal of the source, as code units. *)
Definition lit (s : string) : str := map N_of_ascii (list_ascii_of_string s).
Arguments lit s%_string.

Definition str_eqb (a b : str) : bool :=
  if list_eq_dec N.eq_dec a b then true else false.

(** Truthiness of a string: every string but the empty one. *)
Definition truthy (s : str) : bool :=
  match s with [] => false | _ :: _ => true end.

(** Truthiness of [string | undefined]. *)
Definition truthyOpt (o : option str) : bool :=
  match o with Some s => truthy s | None => false end.

(** ECMAScript WhiteSpace and LineTerminator code points: what
    [String.prototype.trim] strips and what [\s] matches. *)
Definition isWhiteSpace (c : char16) : bool :=
  (c =? 0x09) || (c =? 0x0A) || (c =? 0x0B) || (c =? 0x0C) || (c =? 0x0D)
  || (c =? 0x20) || (c =? 0xA0) || (c =? 0x1680)
  || ((0x2000 <=? c) && (c <=? 0x200A))
  || (c =? 0x2028) || (c =? 0x2029) || (c =? 0x202F) || (c =? 0x205F)
  || (c =? 0x3000) || (c =? 0xFEFF).

(** LineTerminator: the code units [.] does not match. *)
Definition isLineTerminator (c : char16) : bool :=
  (c =? 0x0A) || (c =? 0x0D) || (c =? 0x2028) || (c =? 0x2029).

(** [\d] *)
Definition isDigit (c : char16) : bool := (0x30 <=? c) && (c <=? 0x39).

(** [\w] : [A-Za-z0-9_] *)
Definition isWord (c : char16) : bool :=
  ((0x41 <=? c) && (c <=? 0x5A)) || ((0x61 <=? c) && (c <=? 0x7A))
  || isDigit c || (c =? 0x5F).

(** [.] without the [s] flag *)
Definition isDot (c : char16) : bool := negb (isLineTerminator c).

Fixpoint dropWhile (p : char16 -> bool) (s : str) : str :=
  match s with
  | [] => []
  | c :: s' => if p c then dropWhile p s' else s
  end.

Definition trimStart (s : str) : str := dropWhile isWhiteSpace s.
Definition trimEnd (s : str) : str := rev (dropWhile isWhiteSpace (rev s)).

(** [String.prototype.trim] *)
Definition trim (s : str) : str := trimEnd (trimStart s).

(** [String.prototype.startsWith] *)
Fixpoint startsWith (s p : str) {struct p} : bool :=
  match p, s with
  | [], _ => true
  | _ :: _, [] => false
  | a :: p', b :: s' => (a =? b) && startsWith s' p'
  end.

(** [s.slice(n)] for a non-negative [n] *)
Definition slice_from (n : nat) (s : str) : str := skipn n s.

(** [s.split("\n")] : never empty, [""] splits to [[""]]. *)
Fixpoint split_lines (s : str) : list str :=
  match s with
  | [] => [[]]
  | c :: s' =>
      if c =? 0x0A then [] :: split_lines s'
      else match split_lines s' with
           | [] => [[c]]
           | l :: ls => (c :: l) :: ls
           end
  end.

(** [String.prototype.toLowerCase] on ASCII letters; other code units are
    left as they are.  It is only applied to text matched by [\w+], where
    it agrees with the full Unicode operation. *)
Definition toLowerCase (s : str) : str :=
  map (fun c => if (0x41 <=? c) && (c <=? 0x5A) then c + 0x20 else c) s.

(** Decimal rendering of a non-negative integer, as template literals do. *)
Fixpoint digits_of_uint (d : Decimal.uint) : str :=
  match d with
  | Decimal.Nil => []
  | Decimal.D0 d' => 0x30 :: digits_of_uint d'
  | Decimal.D1 d' => 0x31 :: digits_of_uint d'
  | Decimal.D2 d' => 0x32 :: digits_of_uint d'
  | Decimal.D3 d' => 0x33 :: digits_of_uint d'
  | Decimal.D4 d' => 0x34 :: digits_of_uint d'
  | Decimal.D5 d' => 0x35 :: digits_of_uint d'
  | Decimal.D6 d' => 0x36 :: digits_of_uint d'
  | Decimal.D7 d' => 0x37 :: digits_of_uint d'
  | Decimal.D8 d' => 0x38 :: digits_of_uint d'
  | Decimal.D9 d' => 0x39 :: digits_of_uint d'
  end.

Definition show_number (n : N) : str := digits_of_uint (N.to_uint n).

End JS.
Import JS.

(* ================================================================== *)
(** * Address resolver (outbound adapter) *)
(* ================================================================== *)

(** [/^\d{17,20}$/.test(s)] *)
Definition isSnowflake (s : str) : bool :=
  forallb isDigit s && (17 <=? List.length s)%nat && (List.length s <=? 20)%nat.

(** Extract channel ID from Discord target string. *)
Definition extractChannelId (to : str) : option str :=
  let trimmed := trim to in
  if startsWith trimmed (lit "channel:") then
    Some (trim (slice_from 8 trimmed))
  else if isSnowflake trimmed then
    Some trimmed
  else
    None.


(* ================================================================== *)
(** * Errors and the platform the code runs on *)
(* ================================================================== *)

(** A thrown JavaScript value. *)
Inductive JsError :=
| Error (message : str)       (* [new Error(message)] *)
| TypeError (message : str)   (* raised by the runtime: bad argument, invalid URL *)
| External (message : str).   (* whatever a collaborator outside these files rejects with *)

(** The result of a computation that may throw. *)
Definition Res (A : Type) : Type := (JsError + A)%type.

Definition res_bind {A B} (r : Res A) (k : A -> Res B) : Res B :=
  match r with inl e => inl e | inr a => k a end.

(** [try { body } catch { handler }] *)
Definition try_catch {A} (body : Res A) (handler : Res A) : Res A :=
  match body with inl _ => handler | inr a => inr a end.

(* ================================================================== *)
(** * node:path, POSIX flavour *)
(* ================================================================== *)

Module Path.

Definition SLASH : char16 := 0x2F.
Definition DOT : char16 := 0x2E.

Fixpoint split_on (sep : char16) (s : str) : list str :=
  match s with
  | [] => [[]]
  | c :: s' =>
      if c =? sep then [] :: split_on sep s'
      else match split_on sep s' with
           | [] => [[c]]
           | l :: ls => (c :: l) :: ls
           end
  end.

Fixpoint join_with (sep : char16) (segs : list str) : str :=
  match segs with
  | [] => []
  | [x] => x
  | x :: rest => x ++ sep :: join_with sep rest
  end.

(** [normalizeString]: the segments kept so far are held most recent first.
    Empty segments and [.] are dropped; [..] removes the previous segment
    unless there is none or it is itself [..], in which case it is kept
    when the path is relative and dropped when it is absolute. *)
Fixpoint normalize_segments (allowAboveRoot : bool) (segs : list str)
    (kept : list str) : list str :=
  match segs with
  | [] => rev kept
  | seg :: rest =>
      if str_eqb seg [] || str_eqb seg [DOT] then
        normalize_segments allowAboveRoot rest kept
      else if str_eqb seg [DOT; DOT] then
        match kept with
        | prev :: kept' =>
            if str_eqb prev [DOT; DOT]
            then normalize_segments allowAboveRoot rest
                   (if allowAboveRoot then seg :: kept else kept)
            else normalize_segments allowAboveRoot rest kept'
        | [] =>
            normalize_segments allowAboveRoot rest
              (if allowAboveRoot then [seg] else [])
        end
      else normalize_segments allowAboveRoot rest (seg :: kept)
  end.

(** [path.posix.normalize] *)
Definition normalize (path : str) : str :=
  match path with
  | [] => [DOT]
  | first :: _ =>
      let isAbsolute := first =? SLASH in
      let trailingSeparator := last path 0 =? SLASH in
      let p := join_with SLASH
                 (normalize_segments (negb isAbsolute) (split_on SLASH path) []) in
      match p with
      | [] =>
          if isAbsolute then [SLASH]
          else if trailingSeparator then [DOT; SLASH] else [DOT]
      | _ :: _ =>
          let p' := if trailingSeparator then p ++ [SLASH] else p in
          if isAbsolute then SLASH :: p' else p'
      end
  end.

(** [path.posix.join(a, b)] on two strings: the non-empty arguments are
    glued with [/] and the result is normalised. *)
Definition join (a b : str) : str :=
  match filter truthy [a; b] with
  | [] => [DOT]
  | parts => normalize (join_with SLASH parts)
  end.

(** [path.join] checks that every argument is a string before anything
    else; [join(undefined, ...)] throws. *)
Definition join_checked (a : option str) (b : str) : Res str :=
  match a with
  | Some a' => inr (join a' b)
  | None =>
      inl (TypeError
             (lit "The path argument must be of type string. Received undefined"))
  end.

End Path.

(* ================================================================== *)
(** * Agent identity resolution for Discord webhooks *)
(* ================================================================== *)

(** [WebhookIdentity] of send.webhook.ts *)
Record WebhookIdentity := {
  username : option str;
  avatarUrl : option str;
}.

Record AgentIdentity := {
  name : str;
  emoji : option str;
  creature : option str;
  vibe : option str;
  avatar : option str;
}.

(** ** The line pattern [/^\s*-\s*\*\*(\w+):\*\*\s*(.+)$/]

    The pattern is run as a backtracking matcher from the start of the line:
    each piece takes the rest of the pattern as its continuation, a greedy
    repetition first tries to take one more code unit and falls back to
    stopping where it is. *)
Section Regex.
Context {A : Type}.

(** [p*], greedy *)
Fixpoint re_star (p : char16 -> bool) (k : str -> option A) (s : str) : option A :=
  match s with
  | c :: s' =>
      if p c then
        match re_star p k s' with
        | Some r => Some r
        | None => k s
        end
      else k s
  | [] => k s
  end.

(** the tail of a captured greedy repetition; [acc] is what the group holds *)
Fixpoint re_more (p : char16 -> bool) (k : str -> str -> option A)
    (acc : str) (s : str) : option A :=
  match s with
  | c :: s' =>
      if p c then
        match re_more p k (acc ++ [c]) s' with
        | Some r => Some r
        | None => k acc s
        end
      else k acc s
  | [] => k acc s
  end.

(** [(p+)], greedy, captured *)
Definition re_plus_group (p : char16 -> bool) (k : str -> str -> option A)
    (s : str) : option A :=
  match s with
  | c :: s' => if p c then re_more p k [c] s' else None
  | [] => None
  end.

(** a literal piece of the pattern *)
Definition re_lit (l : str) (k : str -> option A) (s : str) : option A :=
  if startsWith s l then k (skipn (List.length l) s) else None.

(** [$] without the [m] flag: the end of the input *)
Definition re_end (r : A) (s : str) : option A :=
  match s with [] => Some r | _ :: _ => None end.

End Regex.

(** [line.match(/^\s*-\s*\*\*(\w+):\*\*\s*(.+)$/)] : the two groups. *)
Definition matchIdentityLine (line : str) : option (str * str) :=
  re_star isWhiteSpace
    (re_lit (lit "-")
      (re_star isWhiteSpace
        (re_lit (lit "**")
          (re_plus_group isWord (fun field =>
            re_lit (lit ":**")
              (re_star isWhiteSpace
                (re_plus_group isDot (fun value =>
                  re_end (field, value)))))))))
    line.

(** The five [let] variables of [parseIdentityMd]. *)
Record ParseState := {
  st_name : option str;
  st_emoji : option str;
  st_creature : option str;
  st_vibe : option str;
  st_avatar : option str;
}.

Definition parse_init : ParseState :=
  {| st_name := None; st_emoji := None; st_creature := None;
     st_vibe := None; st_avatar := None |}.

(** One iteration of the loop over the lines. *)
Definition parse_line (st : ParseState) (line : str) : ParseState :=
  match matchIdentityLine line with
  | None => st
  | Some (field, value) =>
      let trimmedValue := trim value in
      let f := toLowerCase field in
      if str_eqb f (lit "name") then
        {| st_name := Some trimmedValue; st_emoji := st_emoji st;
           st_creature := st_creature st; st_vibe := st_vibe st;
           st_avatar := st_avatar st |}
      else if str_eqb f (lit "emoji") then
        {| st_name := st_name st; st_emoji := Some trimmedValue;
           st_creature := st_creature st; st_vibe := st_vibe st;
           st_avatar := st_avatar st |}
      else if str_eqb f (lit "creature") then
        {| st_name := st_name st; st_emoji := st_emoji st;
           st_creature := Some trimmedValue; st_vibe := st_vibe st;
           st_avatar := st_avatar st |}
      else if str_eqb f (lit "vibe") then
        {| st_name := st_name st; st_emoji := st_emoji st;
           st_creature := st_creature st; st_vibe := Some trimmedValue;
           st_avatar := st_avatar st |}
      else if str_eqb f (lit "avatar") then
        {| st_name := st_name st; st_emoji := st_emoji st;
           st_creature := st_creature st; st_vibe := st_vibe st;
           st_avatar := Some trimmedValue |}
      else st
  end.

(** Parse IDENTITY.md content to extract agent identity fields. *)
Definition parseIdentityMd (content : str) : option AgentIdentity :=
  let lines := split_lines content in
  let st := fold_left parse_line lines parse_init in
  match st_name st with
  | None => None
  | Some n =>
      if truthy n then
        Some {| name := n; emoji := st_emoji st; creature := st_creature st;
                vibe := st_vibe st; avatar := st_avatar st |}
      else None
  end.

(** What the identity module reads from its surroundings. *)
Record IdentityEnv := {
  env_HOME : option str;          (* [process.env.HOME] *)
  readFile : str -> Res str;      (* [readFile(path, "utf-8")], decoded *)
}.

(** Load agent identity from workspace IDENTITY.md. *)
Definition loadAgentIdentity (E : IdentityEnv) (workspaceDir : str)
  : Res (option AgentIdentity) :=
  try_catch
    (let identityPath := Path.join workspaceDir (lit "IDENTITY.md") in
     res_bind (readFile E identityPath) (fun content =>
     inr (parseIdentityMd content)))
    (inr None).

(** [a ?? b] *)
Definition nullish {A} (a b : option A) : option A :=
  match a with Some _ => a | None => b end.

(** The [base] of [resolveAgentIdentityById]:
    [(baseWorkspaceDir ?? process.env.HOME)
        ? join(process.env.HOME!, "workspace") : "/home/clawd/workspace"] *)
Definition resolveBase (E : IdentityEnv) (baseWorkspaceDir : option str) : Res str :=
  if truthyOpt (nullish baseWorkspaceDir (env_HOME E))
  then Path.join_checked (env_HOME E) (lit "workspace")
  else inr (lit "/home/clawd/workspace").

(** The [workspaceDir] of [resolveAgentIdentityById]. *)
Definition resolveWorkspaceDir (E : IdentityEnv) (agentId : str)
    (baseWorkspaceDir : option str) : Res str :=
  res_bind (resolveBase E baseWorkspaceDir) (fun base =>
  inr (Path.join base agentId)).

(** Resolve agent identity from agentId by looking up workspace. *)
Definition resolveAgentIdentityById (E : IdentityEnv) (agentId : str)
    (baseWorkspaceDir : option str) : Res (option AgentIdentity) :=
  res_bind (resolveWorkspaceDir E agentId baseWorkspaceDir) (fun workspaceDir =>
  loadAgentIdentity E workspaceDir).

(** Convert AgentIdentity to WebhookIdentity for Discord. *)
Definition toWebhookIdentity (identity : AgentIdentity)
    (avatarUrlOverride : option str) : WebhookIdentity :=
  let displayName :=
    if truthyOpt (emoji identity)
    then match emoji identity with
         | Some e => e ++ lit " " ++ name identity
         | None => name identity
         end
    else name identity in
  {| username := Some displayName;
     avatarUrl := nullish avatarUrlOverride (avatar identity) |}.

(** The optional second argument of [resolveWebhookIdentity]. *)
Record ResolveOpts := {
  baseWorkspaceDir : option str;
  avatarUrl_override : option str;
}.

(** Resolve webhook identity for an agent. *)
Definition resolveWebhookIdentity (E : IdentityEnv) (agentId : str)
    (opts : option ResolveOpts) : Res (option WebhookIdentity) :=
  res_bind
    (resolveAgentIdentityById E agentId
       (match opts with Some o => baseWorkspaceDir o | None => None end))
    (fun identity =>
  match identity with
  | None => inr None
  | Some i =>
      inr (Some (toWebhookIdentity i
                   (match opts with Some o => avatarUrl_override o | None => None end)))
  end).

(* ================================================================== *)
(** * Webhook transport: data *)
(* ================================================================== *)

Definition DISCORD_TEXT_LIMIT : N := 2000.

(** An element of [embeds?: unknown[]]: opaque to this code, held as text. *)
Definition Embed := str.

(** [ChunkMode] is a string at run time. *)
Definition ChunkMode := str.

Record WebhookSendOptions := {
  webhookUrl : str;
  identity : option WebhookIdentity;
  replyTo : option str;
  threadId : option str;
  maxLinesPerMessage : option N;
  chunkMode : option ChunkMode;
  embeds : option (list Embed);
}.

Record WebhookSendResult := {
  messageId : str;
  channelId : str;
}.

(** [{ ...opts, embeds: e }] *)
Definition with_embeds (opts : WebhookSendOptions) (e : option (list Embed))
  : WebhookSendOptions :=
  {| webhookUrl := webhookUrl opts; identity := identity opts;
     replyTo := replyTo opts; threadId := threadId opts;
     maxLinesPerMessage := maxLinesPerMessage opts;
     chunkMode := chunkMode opts; embeds := e |}.

(** The same options with another [replyTo]. *)
Definition with_replyTo (opts : WebhookSendOptions) (r : option str)
  : WebhookSendOptions :=
  {| webhookUrl := webhookUrl opts; identity := identity opts;
     replyTo := r; threadId := threadId opts;
     maxLinesPerMessage := maxLinesPerMessage opts;
     chunkMode := chunkMode opts; embeds := embeds opts |}.

(** The second argument of [chunkDiscordTextWithMode]. *)
Record ChunkOptions := {
  maxChars : N;
  maxLines : option N;
  chunk_chunkMode : option ChunkMode;
}.

(** What [loadWebMedia] resolves to. *)
Record WebMedia := {
  buffer : list Byte.byte;
  fileName : option str;
  mimeType : option str;
}.

(** The object handed to [JSON.stringify]: the body of a text post, and the
    [payload_json] part of a file post.  A field that was never assigned is
    [None] and does not appear in the JSON text. *)
Record Payload := {
  content : option str;
  payload_username : option str;
  avatar_url : option str;
  payload_embeds : option (list Embed);
}.

(** One call of [fetch], method POST. *)
Inductive Request :=
| JsonPost (url : str) (body : Payload)
| FilePost (url : str) (payload_json : Payload)
           (blob : list Byte.byte) (blobType : str) (blobName : str).

(** The parsed JSON of a successful response. *)
Record RawMessage := {
  id : str;
  channel_id : str;
}.

Record Response := {
  ok : bool;
  status : N;
  response_text : Res str;          (* [response.text()] *)
  response_json : Res RawMessage;   (* [response.json()] *)
}.

(* ================================================================== *)
(** * Outbound adapter: data *)
(* ================================================================== *)

Record ChannelConfig := {
  webhook : option str;
}.

(** A [Record<string, T>] in the order [Object.values] enumerates it. *)
Definition Dict (T : Type) : Type := list (str * T).

Fixpoint dict_get {T} (d : Dict T) (key : str) : option T :=
  match d with
  | [] => None
  | (k, v) :: d' => if str_eqb k key then Some v else dict_get d' key
  end.

Record GuildConfig := {
  channels : option (Dict ChannelConfig);
}.

Record DiscordConfig := {
  guilds : option (Dict GuildConfig);
}.

Record ChannelsConfig := {
  discord : option DiscordConfig;
}.

Record OpenClawConfig := {
  cfg_channels : option ChannelsConfig;
}.

(** The options the adapter passes to the bot-API sender. *)
Record BotSendOptions := {
  verbose : bool;
  bot_mediaUrl : option str;
  bot_replyTo : option str;
  bot_accountId : option str;
}.

(** A bot-API sender: [sendMessageDiscord] or an injected [deps.sendDiscord]. *)
Definition BotSender : Type := str -> str -> BotSendOptions -> Res WebhookSendResult.

Record OutboundDeps := {
  sendDiscord : option BotSender;
}.

Record ChannelOutboundContext := {
  to : str;
  text : str;
  mediaUrl : option str;
  cfg : OpenClawConfig;
  accountId : option str;
  deps : option OutboundDeps;
  replyToId : option str;
  agentId : option str;
}.

(** The same context with another reply target. *)
Definition with_replyToId (ctx : ChannelOutboundContext) (r : option str)
  : ChannelOutboundContext :=
  {| to := to ctx; text := text ctx; mediaUrl := mediaUrl ctx; cfg := cfg ctx;
     accountId := accountId ctx; deps := deps ctx; replyToId := r;
     agentId := agentId ctx |}.

(** [{ channel: "discord", ...result }] *)
Record Receipt := {
  channel : str;
  receipt_messageId : str;
  receipt_channelId : str;
}.

Definition tag_discord (result : WebhookSendResult) : Receipt :=
  {| channel := lit "discord"; receipt_messageId := messageId result;
     receipt_channelId := channelId result |}.

(* ================================================================== *)
(** * Traces *)
(* ================================================================== *)

(** The arguments of the four [console.log] calls of the adapter. *)
Inductive LogLine :=
| LogDebug (channelId : option str) (hasWebhookUrl : bool) (agentId : option str)
| LogIdentityResolved (identity : option WebhookIdentity)
| LogSendingVia (username : option str)
| LogFallingBack.

(** What a run leaves behind, oldest first: network calls of the webhook
    transport, the adapter's calls into the transport and into the bot-API
    client, and its diagnostic log lines. *)
Inductive Event :=
| Fetch (req : Request)
| CallWebhookText (text : str) (opts : WebhookSendOptions)
| CallWebhookMedia (text mediaUrl : str) (opts : WebhookSendOptions)
| CallBotApi (to text : str) (opts : BotSendOptions)
| ConsoleLog (line : LogLine).

Definition Trace := list Event.

(** The network calls of a trace, in order. *)
Fixpoint requests_of (tr : Trace) : list Request :=
  match tr with
  | [] => []
  | Fetch req :: tr' => req :: requests_of tr'
  | _ :: tr' => requests_of tr'
  end.

(** A computation with a trace: a thrown error keeps the trace. *)
Definition M (A : Type) : Type := Trace -> Res A * Trace.

Definition ret {A} (a : A) : M A := fun tr => (inr a, tr).

Definition bind {A B} (m : M A) (k : A -> M B) : M B :=
  fun tr =>
    match m tr with
    | (inl e, tr') => (inl e, tr')
    | (inr a, tr') => k a tr'
    end.

Definition throw {A} (e : JsError) : M A := fun tr => (inl e, tr).

Definition emit (ev : Event) : M unit := fun tr => (inr tt, tr ++ [ev]).

(** An awaited computation that leaves no trace. *)
Definition await {A} (r : Res A) : M A := fun tr => (r, tr).

Declare Scope js_scope.
Delimit Scope js_scope with js.
Notation "x <- c ;; k" := (bind c (fun x => k))
  (at level 61, c at next level, right associativity) : js_scope.
Notation "c ;; k" := (bind c (fun _ => k))
  (at level 61, right associativity) : js_scope.
Local Open Scope js_scope.

(** The world outside the three files. *)
Record Platform := {
  (** the file system and environment the identity module reads *)
  identityEnv : IdentityEnv;
  (** the WHATWG [URL] class: [new URL(s)] ([None]: it throws),
      [url.searchParams.set(k, v)], [url.toString()] *)
  URL : Type;
  newURL : str -> option URL;
  searchParams_set : URL -> str -> str -> URL;
  URL_toString : URL -> str;
  (** [fetch]: what the network answers to a request, given the requests
      it has seen before; [inl]: the promise rejects *)
  fetch : list Request -> Request -> Res Response;
  (** [chunkDiscordTextWithMode] of ./chunk.js *)
  chunkDiscordTextWithMode : str -> ChunkOptions -> list str;
  (** [loadWebMedia] of ../web/media.js *)
  loadWebMedia : str -> Res WebMedia;
  (** [sendMessageDiscord] of ./send.js, the default bot-API sender *)
  sendMessageDiscord : BotSender;
}.

(* ================================================================== *)
(** * Webhook transport (send.webhook.ts) *)
(* ================================================================== *)

Section Transport.
Context (P : Platform).

(** [opts.identity?.username], [opts.identity?.avatarUrl] *)
Definition identity_username (opts : WebhookSendOptions) : option str :=
  match identity opts with Some i => username i | None => None end.

Definition identity_avatarUrl (opts : WebhookSendOptions) : option str :=
  match identity opts with Some i => avatarUrl i | None => None end.

(** The value of a field assigned under [if (v) field = v]. *)
Definition if_truthy (v : option str) : option str :=
  if truthyOpt v then v else None.

(** The value of [embeds] assigned under [if (opts.embeds?.length)]. *)
Definition if_nonempty (v : option (list Embed)) : option (list Embed) :=
  match v with
  | Some (_ :: _) => v
  | _ => None
  end.

(** [await fetch(url, ...)]: the call is recorded, the network answers. *)
Definition do_fetch (req : Request) : M Response :=
  fun tr => (fetch P (requests_of tr) req, tr ++ [Fetch req]).

(** The first lines of both post functions: the endpoint with [wait=true]
    and, when a thread is targeted, [thread_id].  [new URL] throws on a
    string that is no URL. *)
Definition webhook_endpoint (opts : WebhookSendOptions) : Res (URL P) :=
  match newURL P (webhookUrl opts) with
  | None => inl (TypeError (lit "Invalid URL"))
  | Some url =>
      let url := searchParams_set P url (lit "wait") (lit "true") in
      match threadId opts with
      | Some t =>
          if truthy t
          then inr (searchParams_set P url (lit "thread_id") t)
          else inr url
      | None => inr url
      end
  end.

(** The [body] object of [postWebhookMessage]. *)
Definition json_body (content : str) (opts : WebhookSendOptions) : Payload :=
  {| content := Some content;
     payload_username := if_truthy (identity_username opts);
     avatar_url := if_truthy (identity_avatarUrl opts);
     payload_embeds := if_nonempty (embeds opts) |}.

(** The [payload] object of [postWebhookMessageWithFile]. *)
Definition file_payload (content : str) (opts : WebhookSendOptions) : Payload :=
  {| content := if truthy content then Some content else None;
     payload_username := if_truthy (identity_username opts);
     avatar_url := if_truthy (identity_avatarUrl opts);
     payload_embeds := if_nonempty (embeds opts) |}.

(** The last lines of both post functions: a non-success status throws,
    otherwise the JSON of the response is read. *)
Definition read_response (failure : str) (response : Response)
  : Res WebhookSendResult :=
  if negb (ok response) then
    let errorText :=
      match response_text response with
      | inr t => t
      | inl _ => lit "unknown error"
      end in
    inl (Error (failure ++ lit " (" ++ show_number (status response)
                  ++ lit "): " ++ errorText))
  else
    res_bind (response_json response) (fun result =>
    inr {| messageId := id result; channelId := channel_id result |}).

(** Post a message to Discord webhook. *)
Definition postWebhookMessage (content : str) (opts : WebhookSendOptions)
  : M WebhookSendResult :=
  url <- await (webhook_endpoint opts) ;;
  let body := json_body content opts in
  response <- do_fetch (JsonPost (URL_toString P url) body) ;;
  await (read_response (lit "Discord webhook failed") response).

(** Post a message with file attachment to Discord webhook. *)
Definition postWebhookMessageWithFile (content : str) (media : WebMedia)
    (opts : WebhookSendOptions) : M WebhookSendResult :=
  url <- await (webhook_endpoint opts) ;;
  let payload := file_payload content opts in
  let blobType :=
    match mimeType media with
    | Some t => t
    | None => lit "application/octet-stream"
    end in
  let blobName :=
    match fileName media with
    | Some n => n
    | None => lit "upload"
    end in
  response <- do_fetch (FilePost (URL_toString P url) payload
                          (buffer media) blobType blobName) ;;
  await (read_response (lit "Discord webhook file upload failed") response).

(** [chunkDiscordTextWithMode(text, { maxChars: DISCORD_TEXT_LIMIT,
      maxLines: opts.maxLinesPerMessage, chunkMode: opts.chunkMode })] *)
Definition chunk_text (text : str) (opts : WebhookSendOptions) : list str :=
  chunkDiscordTextWithMode P text
    {| maxChars := DISCORD_TEXT_LIMIT;
       maxLines := maxLinesPerMessage opts;
       chunk_chunkMode := chunkMode opts |}.

(** [if (!chunks.length && text) chunks.push(text);] *)
Definition or_whole_text (chunks : list str) (text : str) : list str :=
  match chunks with
  | [] => if truthy text then chunks ++ [text] else chunks
  | _ :: _ => chunks
  end.

(** The [for (const chunk of chunks)] loop of [sendDiscordWebhookText],
    with its two variables. *)
Fixpoint text_loop (chunks : list str) (opts : WebhookSendOptions)
    (lastResult : option WebhookSendResult) (isFirst : bool)
  : M (option WebhookSendResult) :=
  match chunks with
  | [] => ret lastResult
  | chunk :: rest =>
      r <- postWebhookMessage chunk
             (with_embeds opts (if isFirst then embeds opts else None)) ;;
      text_loop rest opts (Some r) false
  end.

(** Send a text message via Discord webhook. *)
Definition sendDiscordWebhookText (text : str) (opts : WebhookSendOptions)
  : M WebhookSendResult :=
  if negb (truthy (trim text)) then
    throw (Error (lit "Message must be non-empty for Discord webhook sends"))
  else
    let chunks := chunk_text text opts in
    let chunks := or_whole_text chunks text in
    lastResult <- text_loop chunks opts None true ;;
    match lastResult with
    | None => throw (Error (lit "Discord webhook send failed (empty chunk result)"))
    | Some r => ret r
    end.

(** The [for (const chunk of chunks.slice(1))] loop of
    [sendDiscordWebhookMedia]. *)
Fixpoint followup_loop (chunks : list str) (opts : WebhookSendOptions) : M unit :=
  match chunks with
  | [] => ret tt
  | chunk :: rest =>
      if negb (truthy (trim chunk)) then followup_loop rest opts
      else
        postWebhookMessage chunk opts ;;
        followup_loop rest opts
  end.

(** Send a media message via Discord webhook. *)
Definition sendDiscordWebhookMedia (text : str) (mediaUrl : str)
    (opts : WebhookSendOptions) : M WebhookSendResult :=
  media <- await (loadWebMedia P mediaUrl) ;;
  let chunks := if truthy text then chunk_text text opts else [] in
  let chunks := or_whole_text chunks text in
  let caption := match chunks with c :: _ => c | [] => [] end in
  result <- postWebhookMessageWithFile caption media
              (with_embeds opts (embeds opts)) ;;
  followup_loop (tl chunks) opts ;;
  ret result.

End Transport.

(* ================================================================== *)
(** * Outbound adapter *)
(* ================================================================== *)

(** The loop of [resolveWebhookUrl] over [Object.values(guilds)]. *)
Fixpoint resolveWebhookUrl_loop (guildConfigs : list GuildConfig) (channelId : str)
  : option str :=
  match guildConfigs with
  | [] => None
  | guildConfig :: rest =>
      match channels guildConfig with
      | None => resolveWebhookUrl_loop rest channelId
      | Some chans =>
          match dict_get chans channelId with
          | Some channelConfig =>
              if truthyOpt (webhook channelConfig)
              then webhook channelConfig
              else resolveWebhookUrl_loop rest channelId
          | None => resolveWebhookUrl_loop rest channelId
          end
      end
  end.

(** [cfg.channels?.discord?.guilds] *)
Definition cfg_guilds (c : OpenClawConfig) : option (Dict GuildConfig) :=
  match cfg_channels c with
  | Some ch =>
      match discord ch with
      | Some d => guilds d
      | None => None
      end
  | None => None
  end.

(** Resolve webhook URL for a Discord channel from config. *)
Definition resolveWebhookUrl (c : OpenClawConfig) (channelId : str) : option str :=
  match cfg_guilds c with
  | None => None
  | Some g => resolveWebhookUrl_loop (map snd g) channelId
  end.

Section Adapter.
Context (P : Platform).

Definition console_log (line : LogLine) : M unit := emit (ConsoleLog line).

(** [deps?.sendDiscord ?? sendMessageDiscord] *)
Definition pick_sender (d : option OutboundDeps) : BotSender :=
  match d with
  | Some d' =>
      match sendDiscord d' with
      | Some s => s
      | None => sendMessageDiscord P
      end
  | None => sendMessageDiscord P
  end.

(** [await send(to, text, opts)]: the call into the bot-API client. *)
Definition call_bot (send : BotSender) (to text : str) (opts : BotSendOptions)
  : M WebhookSendResult :=
  emit (CallBotApi to text opts) ;;
  await (send to text opts).

(** [await sendDiscordWebhookText(text, opts)] from the adapter. *)
Definition call_webhook_text (text : str) (opts : WebhookSendOptions)
  : M WebhookSendResult :=
  emit (CallWebhookText text opts) ;;
  sendDiscordWebhookText P text opts.

(** [await sendDiscordWebhookMedia(text, mediaUrl, opts)] from the adapter. *)
Definition call_webhook_media (text mediaUrl : str) (opts : WebhookSendOptions)
  : M WebhookSendResult :=
  emit (CallWebhookMedia text mediaUrl opts) ;;
  sendDiscordWebhookMedia P text mediaUrl opts.

(** [{ webhookUrl, identity }] *)
Definition webhook_opts (url : str) (i : WebhookIdentity) : WebhookSendOptions :=
  {| webhookUrl := url; identity := Some i; replyTo := None; threadId := None;
     maxLinesPerMessage := None; chunkMode := None; embeds := None |}.

(** [channelId ? resolveWebhookUrl(cfg, channelId) : undefined] *)
Definition webhookUrl_for (c : OpenClawConfig) (channelId : option str) : option str :=
  match channelId with
  | Some cid => if truthy cid then resolveWebhookUrl c cid else None
  | None => None
  end.

(** The bot-API tail of [sendTextWithWebhookFallback]. *)
Definition text_fallback (ctx : ChannelOutboundContext) : M Receipt :=
  console_log LogFallingBack ;;
  let send := pick_sender (deps ctx) in
  result <- call_bot send (to ctx) (text ctx)
              {| verbose := false; bot_mediaUrl := None;
                 bot_replyTo := replyToId ctx;
                 bot_accountId := accountId ctx |} ;;
  ret (tag_discord result).

(** Send text via webhook if configured, otherwise fall back to bot API. *)
Definition sendTextWithWebhookFallback (ctx : ChannelOutboundContext) : M Receipt :=
  let channelId := extractChannelId (to ctx) in
  let webhookUrl := webhookUrl_for (cfg ctx) channelId in
  console_log (LogDebug channelId (truthyOpt webhookUrl) (agentId ctx)) ;;
  match webhookUrl, agentId ctx with
  | Some url, Some agent =>
      if truthy url && truthy agent then
        identity <- await (resolveWebhookIdentity (identityEnv P) agent None) ;;
        console_log (LogIdentityResolved identity) ;;
        match identity with
        | Some i =>
            console_log (LogSendingVia (username i)) ;;
            result <- call_webhook_text (text ctx) (webhook_opts url i) ;;
            ret (tag_discord result)
        | None => text_fallback ctx
        end
      else text_fallback ctx
  | _, _ => text_fallback ctx
  end.

(** The bot-API tail of [sendMediaWithWebhookFallback]. *)
Definition media_fallback (ctx : ChannelOutboundContext) : M Receipt :=
  let send := pick_sender (deps ctx) in
  result <- call_bot send (to ctx) (text ctx)
              {| verbose := false; bot_mediaUrl := mediaUrl ctx;
                 bot_replyTo := replyToId ctx;
                 bot_accountId := accountId ctx |} ;;
  ret (tag_discord result).

(** Send media via webhook if configured, otherwise fall back to bot API. *)
Definition sendMediaWithWebhookFallback (ctx : ChannelOutboundContext) : M Receipt :=
  let channelId := extractChannelId (to ctx) in
  let webhookUrl := webhookUrl_for (cfg ctx) channelId in
  match webhookUrl, agentId ctx, mediaUrl ctx with
  | Some url, Some agent, Some media =>
      if truthy url && truthy agent && truthy media then
        identity <- await (resolveWebhookIdentity (identityEnv P) agent None) ;;
        match identity with
        | Some i =>
            result <- call_webhook_media (text ctx) media (webhook_opts url i) ;;
            ret (tag_discord result)
        | None => media_fallback ctx
        end
      else media_fallback ctx
  | _, _, _ => media_fallback ctx
  end.

End Adapter.

(* ================================================================== *)
(** * Reading a trace *)
(* ================================================================== *)

(** The JSON object a request carries. *)
Definition request_payload (r : Request) : Payload :=
  match r with
  | JsonPost _ body => body
  | FilePost _ payload _ _ _ => payload
  end.

Definition is_file_post (r : Request) : bool :=
  match r with FilePost _ _ _ _ _ => true | JsonPost _ _ => false end.

Definition is_webhook_call (ev : Event) : bool :=
  match ev with
  | CallWebhookText _ _ | CallWebhookMedia _ _ _ => true
  | _ => false
  end.

Definition is_bot_call (ev : Event) : bool :=
  match ev with CallBotApi _ _ _ => true | _ => false end.

(** The network accepts a request: the response has a success status and
    its JSON reads as [j]. *)
Definition accepted (P : Platform) (history : list Request) (req : Request)
    (j : RawMessage) : Prop :=
  exists resp, fetch P history req = inr resp /\ ok resp = true
               /\ response_json resp = inr j.

Definition result_of_json (j : RawMessage) : WebhookSendResult :=
  {| messageId := id j; channelId := channel_id j |}.

(* ================================================================== *)
(** * A small concrete platform, to run the code on *)
(* ================================================================== *)

Module Demo.

(** A chunker that cuts every [maxChars] code units. *)
Fixpoint cut (fuel width : nat) (s : str) : list str :=
  match fuel, s with
  | 0%nat, _ => []
  | _, [] => []
  | S fuel', _ :: _ => firstn width s :: cut fuel' width (skipn width s)
  end.

Definition chunk_by_length (text : str) (o : ChunkOptions) : list str :=
  cut (List.length text) (Nat.max 1 (N.to_nat (maxChars o))) text.

(** URLs: the string before the query, and the query parameters. *)
Definition Url : Type := (str * list (str * str))%type.

Definition parse_url (s : str) : option Url :=
  if startsWith s (lit "https://") then Some (s, []) else None.

Fixpoint set_param (ps : list (str * str)) (k v : str) : list (str * str) :=
  match ps with
  | [] => [(k, v)]
  | (k', v') :: ps' =>
      if str_eqb k' k then (k, v) :: ps' else (k', v') :: set_param ps' k v
  end.

Definition url_set (u : Url) (k v : str) : Url := (fst u, set_param (snd u) k v).

Definition url_to_string (u : Url) : str :=
  match snd u with
  | [] => fst u
  | ps => fst u ++ lit "?"
          ++ Path.join_with 0x26 (map (fun kv => fst kv ++ lit "=" ++ snd kv) ps)
  end.

(** A response with a success status; the message id is [n]. *)
Definition accept (n : N) : Res Response :=
  inr {| ok := true; status := 200;
         response_text := inr [];
         response_json := inr {| id := show_number n; channel_id := lit "555" |} |}.

(** A response with status [code] and body [body]. *)
Definition refuse (code : N) (body : str) : Res Response :=
  inr {| ok := false; status := code;
         response_text := inr body;
         response_json := inl (External (lit "Unexpected token")) |}.

(** A network that answers its n-th request with the n-th element of
    [script], and accepts every request after that. *)
Definition scripted (script : list (Res Response))
    (history : list Request) (req : Request) : Res Response :=
  nth (List.length history) script
      (accept (N.of_nat (List.length history) + 1)).

(** A file system holding the listed files. *)
Definition files (fs : list (str * str)) (path : str) : Res str :=
  match dict_get fs path with
  | Some c => inr c
  | None => inl (External (lit "ENOENT: no such file or directory"))
  end.

Definition media_store (url : str) : Res WebMedia :=
  if startsWith url (lit "https://") then
    inr {| buffer := [Byte.x89; Byte.x50; Byte.x4e; Byte.x47];
           fileName := Some (lit "cat.png");
           mimeType := Some (lit "image/png") |}
  else inl (External (lit "Failed to fetch media")).

Definition bot (to text : str) (o : BotSendOptions) : Res WebhookSendResult :=
  inr {| messageId := lit "9001"; channelId := to |}.

Definition platform (home : option str) (fs : list (str * str))
    (script : list (Res Response)) : Platform :=
  {| identityEnv := {| env_HOME := home; readFile := files fs |};
     URL := Url;
     newURL := parse_url;
     searchParams_set := url_set;
     URL_toString := url_to_string;
     fetch := scripted script;
     chunkDiscordTextWithMode := chunk_by_length;
     loadWebMedia := media_store;
     sendMessageDiscord := bot |}.

(** A text of [n] letters [a]. *)
Definition letters (n : nat) : str := repeat 0x61 n.

(** The fire emoji U+1F525, as its two UTF-16 code units. *)
Definition fire : str := [0xD83D; 0xDD25].

Definition hook : str := lit "https://discord.com/api/webhooks/1/abc".

Definition plain_opts : WebhookSendOptions :=
  {| webhookUrl := hook; identity := None; replyTo := None; threadId := None;
     maxLinesPerMessage := None; chunkMode := None; embeds := None |}.

Definition ember_md : str :=
  lit "# IDENTITY" ++ [0x0A] ++ lit "- **Name:** Ember" ++ [0x0A]
  ++ lit "- **Emoji:** " ++ fire ++ [0x0A] ++ lit "- **Vibe:** warm".

Definition ember_files : list (str * str) :=
  [(lit "/home/u/workspace/ember/IDENTITY.md", ember_md)].

Definition ember_cfg : OpenClawConfig :=
  {| cfg_channels := Some {| discord := Some {| guilds := Some
       [(lit "900000000000000001",
         {| channels := Some
              [(lit "123456789012345678", {| webhook := Some hook |})] |})] |} |} |}.

Definition ember_ctx : ChannelOutboundContext :=
  {| to := lit "channel:123456789012345678"; text := lit "hello";
     mediaUrl := None; cfg := ember_cfg; accountId := None; deps := None;
     replyToId := Some (lit "42"); agentId := Some (lit "ember") |}.

End Demo.


(* ================================================================== *)
(** * The vocabulary of the properties *)
(* ================================================================== *)

(** A channel address: the literal prefix, then anything. *)
Definition has_channel_prefix (t : str) : Prop :=
  exists rest, t = lit "channel:" ++ rest.

(** A snowflake: 17 to 20 decimal digits and nothing else. *)
Definition snowflake (t : str) : Prop :=
  Forall (fun c => 0x30 <= c <= 0x39) t /\ (17 <= List.length t <= 20)%nat.

(** A line of the shape the pattern describes: optional blanks, a dash,
    optional blanks, the field label in bold with its colon, optional
    blanks, and a value that runs to the end of the line. *)
Definition field_line (line field value : str) : Prop :=
  exists ws1 ws2 ws3,
    line = ws1 ++ lit "-" ++ ws2 ++ lit "**" ++ field ++ lit ":**" ++ ws3 ++ value
    /\ forallb isWhiteSpace ws1 = true
    /\ forallb isWhiteSpace ws2 = true
    /\ forallb isWhiteSpace ws3 = true
    /\ field <> [] /\ forallb isWord field = true
    /\ value <> [] /\ forallb isDot value = true.

(** The document has a line that is a [Name] field (in any letter case). *)
Definition has_name_field (content : str) : Prop :=
  exists line field value,
    In line (split_lines content) /\ field_line line field value
    /\ toLowerCase field = lit "name".

(** Some place of the line reads, in any letter case, [name:**]. *)
Fixpoint mentions_name (s : str) : bool :=
  match s with
  | [] => false
  | _ :: s' =>
      (str_eqb (toLowerCase (firstn 4 s)) (lit "name")
       && startsWith (skipn 4 s) (lit ":**"))
      || mentions_name s'
  end.

(** The display name as the specification words it: emoji, one space and
    the name when the emoji field is present, the name alone otherwise. *)
Definition displayName_as_specified (i : AgentIdentity) : str :=
  match emoji i with
  | Some e => e ++ lit " " ++ name i
  | None => name i
  end.

(** A profile whose emoji line was left blank, with a space after the label. *)
Definition blank_emoji_md : str :=
  lit "- **Name:** Ember" ++ [0x0A] ++ lit "- **Emoji:** ".

(** The requests of a text send, in order: only the first carries the
    options' embeds. *)
Definition text_request (P : Platform) (u : URL P) (opts : WebhookSendOptions)
    (first : bool) (chunk : str) : Request :=
  JsonPost (URL_toString P u)
    (json_body chunk (with_embeds opts (if first then embeds opts else None))).

Fixpoint text_requests (P : Platform) (u : URL P) (opts : WebhookSendOptions)
    (first : bool) (chunks : list str) : list Request :=
  match chunks with
  | [] => []
  | c :: rest => text_request P u opts first c :: text_requests P u opts false rest
  end.

(** Posting [reqs] one after the other on a network that has seen
    [history]: the outcome, and the requests that went out. *)
Fixpoint post_all (P : Platform) (failure : str) (history reqs : list Request)
    (lastResult : option WebhookSendResult)
  : Res (option WebhookSendResult) * list Request :=
  match reqs with
  | [] => (inr lastResult, [])
  | req :: rest =>
      match res_bind (fetch P history req) (read_response failure) with
      | inl e => (inl e, [req])
      | inr r =>
          let (out, sent) := post_all P failure (history ++ [req]) rest (Some r) in
          (out, req :: sent)
      end
  end.

Definition text_failure : str := lit "Discord webhook failed".

Definition file_failure : str := lit "Discord webhook file upload failed".

(** The [content] fields of a list of requests. *)
Definition contents (reqs : list Request) : list (option str) :=
  map (fun r => content (request_payload r)) reqs.

Definition empty_result_error : JsError :=
  Error (lit "Discord webhook send failed (empty chunk result)").

Definition blank_text_error : JsError :=
  Error (lit "Message must be non-empty for Discord webhook sends").

(** The file-carrying request of a media send. *)
Definition file_request (P : Platform) (u : URL P) (opts : WebhookSendOptions)
    (caption : str) (media : WebMedia) : Request :=
  FilePost (URL_toString P u) (file_payload caption opts) (buffer media)
    (match mimeType media with
     | Some t => t
     | None => lit "application/octet-stream"
     end)
    (match fileName media with
     | Some n => n
     | None => lit "upload"
     end).

(** The follow-up requests of a media send: one for each remaining chunk
    that is not blank, each built from the options as they are. *)
Fixpoint followup_requests (P : Platform) (u : URL P) (opts : WebhookSendOptions)
    (chunks : list str) : list Request :=
  match chunks with
  | [] => []
  | c :: rest =>
      if negb (truthy (trim c)) then followup_requests P u opts rest
      else JsonPost (URL_toString P u) (json_body c opts)
           :: followup_requests P u opts rest
  end.

(** The chunks of a media send's caption text. *)
Definition media_chunks (P : Platform) (text : str) (opts : WebhookSendOptions)
  : list str :=
  or_whole_text (if truthy text then chunk_text P text opts else []) text.

(** An embed, as an opaque piece of text. *)
Definition an_embed : Embed := lit "embed#1".

Definition opts_with_embed : WebhookSendOptions :=
  with_embeds Demo.plain_opts (Some [an_embed]).

(** The call for [req] fails with [e]: the network rejects it, or answers
    with a status that is no success, or with JSON that cannot be read. *)
Definition call_fails (P : Platform) (failure : str) (history : list Request)
    (req : Request) (e : JsError) : Prop :=
  res_bind (fetch P history req) (read_response failure) = inl e.

(** Every call of [reqs], made in order after [history], is accepted. *)
Definition all_accepted (P : Platform) (history reqs : list Request) : Prop :=
  forall pre req post,
    reqs = pre ++ req :: post -> exists j, accepted P (history ++ pre) req j.

(** A network that accepts the first call and refuses the second with
    status 500. *)
Definition flaky : Platform :=
  Demo.platform None [] [Demo.accept 1; Demo.refuse 500 (lit "boom")].

Definition cat_url : str := lit "https://cdn.example/cat.png".

(** A webhook endpoint resolves for the destination of [ctx]. *)
Definition endpoint_resolves (ctx : ChannelOutboundContext) : Prop :=
  exists cid url,
    extractChannelId (to ctx) = Some cid
    /\ resolveWebhookUrl (cfg ctx) cid = Some url.

(** An acting-agent identifier is present and resolves to an identity. *)
Definition agent_resolves (P : Platform) (ctx : ChannelOutboundContext) : Prop :=
  exists agent i,
    agentId ctx = Some agent
    /\ resolveWebhookIdentity (identityEnv P) agent None = inr (Some i).

(** A media reference is present. *)
Definition media_present (ctx : ChannelOutboundContext) : Prop :=
  exists m, mediaUrl ctx = Some m.

(** The adapter called into the webhook transport. *)
Definition webhook_invoked (new : Trace) : Prop :=
  exists ev, In ev new /\ is_webhook_call ev = true.

(** The options the adapter hands to the bot-API sender. *)
Definition bot_options (ctx : ChannelOutboundContext) (media : option str)
  : BotSendOptions :=
  {| verbose := false; bot_mediaUrl := media;
     bot_replyTo := replyToId ctx; bot_accountId := accountId ctx |}.

(** What the bot-API sender answers, as a receipt. *)
Definition bot_receipt (P : Platform) (ctx : ChannelOutboundContext)
    (media : option str) : Res Receipt :=
  res_bind (pick_sender P (deps ctx) (to ctx) (text ctx) (bot_options ctx media))
    (fun result => inr (tag_discord result)).

(** The exact condition under which a text send goes through the webhook
    at [url] as [i]: channel id, endpoint and agent identifier are all
    non-empty strings and the identity resolves. *)
Definition webhook_branch_text (P : Platform) (ctx : ChannelOutboundContext)
    (url : str) (i : WebhookIdentity) : Prop :=
  exists cid agent,
    extractChannelId (to ctx) = Some cid /\ cid <> []
    /\ resolveWebhookUrl (cfg ctx) cid = Some url
    /\ agentId ctx = Some agent /\ agent <> []
    /\ resolveWebhookIdentity (identityEnv P) agent None = inr (Some i).

(** The same for a media send of the media at [m]. *)
Definition webhook_branch_media (P : Platform) (ctx : ChannelOutboundContext)
    (url : str) (i : WebhookIdentity) (m : str) : Prop :=
  webhook_branch_text P ctx url i /\ mediaUrl ctx = Some m /\ m <> [].

(** The decision of [sendTextWithWebhookFallback], as a function. *)
Definition text_route (P : Platform) (ctx : ChannelOutboundContext)
  : option (str * WebhookIdentity) :=
  match webhookUrl_for (cfg ctx) (extractChannelId (to ctx)), agentId ctx with
  | Some url, Some agent =>
      if truthy url && truthy agent then
        match resolveWebhookIdentity (identityEnv P) agent None with
        | inr (Some i) => Some (url, i)
        | _ => None
        end
      else None
  | _, _ => None
  end.

(** The decision of [sendMediaWithWebhookFallback], as a function. *)
Definition media_route (P : Platform) (ctx : ChannelOutboundContext)
  : option (str * WebhookIdentity * str) :=
  match webhookUrl_for (cfg ctx) (extractChannelId (to ctx)), agentId ctx,
        mediaUrl ctx with
  | Some url, Some agent, Some m =>
      if truthy url && truthy agent && truthy m then
        match resolveWebhookIdentity (identityEnv P) agent None with
        | inr (Some i) => Some (url, i, m)
        | _ => None
        end
      else None
  | _, _, _ => None
  end.

(** The log line every text send starts with. *)
Definition debug_line (ctx : ChannelOutboundContext) : Event :=
  ConsoleLog
    (LogDebug (extractChannelId (to ctx))
       (truthyOpt (webhookUrl_for (cfg ctx) (extractChannelId (to ctx))))
       (agentId ctx)).

Definition is_log (ev : Event) : bool :=
  match ev with ConsoleLog _ => true | _ => false end.

(** The log lines of a text send that falls back to the bot API. *)
Definition fallback_logs (ctx : ChannelOutboundContext) : list Event :=
  debug_line ctx
  :: match webhookUrl_for (cfg ctx) (extractChannelId (to ctx)), agentId ctx with
     | Some url, Some agent =>
         if truthy url && truthy agent
         then [ConsoleLog (LogIdentityResolved None); ConsoleLog LogFallingBack]
         else [ConsoleLog LogFallingBack]
     | _, _ => [ConsoleLog LogFallingBack]
     end.

(* ================================================================== *)
(** * Further vocabulary *)
(* ================================================================== *)

(** A string of whitespace only (the empty string included). *)
Definition blank (s : str) : Prop := forallb isWhiteSpace s = true.

(** A non-empty string that neither starts nor ends with whitespace. *)
Definition tight (s : str) : Prop :=
  exists a m, s = a :: m /\ isWhiteSpace a = false
              /\ isWhiteSpace (last s a) = false.

(** Guild [g] configures the non-empty webhook [url] for channel [cid]. *)
Definition configures (g : GuildConfig) (cid url : str) : Prop :=
  exists chans cc,
    channels g = Some chans /\ dict_get chans cid = Some cc
    /\ webhook cc = Some url /\ url <> [].

(** The identity [i] with the field labelled [field] (in lower case) set
    to [value]; a label that is none of the five leaves [i] as it is. *)
Definition with_field (i : AgentIdentity) (field value : str) : AgentIdentity :=
  if str_eqb field (lit "name") then
    {| name := value; emoji := emoji i; creature := creature i;
       vibe := vibe i; avatar := avatar i |}
  else if str_eqb field (lit "emoji") then
    {| name := name i; emoji := Some value; creature := creature i;
       vibe := vibe i; avatar := avatar i |}
  else if str_eqb field (lit "creature") then
    {| name := name i; emoji := emoji i; creature := Some value;
       vibe := vibe i; avatar := avatar i |}
  else if str_eqb field (lit "vibe") then
    {| name := name i; emoji := emoji i; creature := creature i;
       vibe := Some value; avatar := avatar i |}
  else if str_eqb field (lit "avatar") then
    {| name := name i; emoji := emoji i; creature := creature i;
       vibe := vibe i; avatar := Some value |}
  else i.

(** The optional fields of a parse state, and of an identity. *)
Definition state_values (st : ParseState) : list (option str) :=
  [st_name st; st_emoji st; st_creature st; st_vibe st; st_avatar st].

Definition optional_fields (i : AgentIdentity) : list (option str) :=
  [emoji i; creature i; vibe i; avatar i].

(** The workspace root the adapter's identity lookup starts from. *)
Definition default_base (E : IdentityEnv) : str :=
  match env_HOME E with
  | Some (c :: h) => Path.join (c :: h) (lit "workspace")
  | _ => lit "/home/clawd/workspace"
  end.

(** The profile document of [agent], if it can be read. *)
Definition profile_of (E : IdentityEnv) (agent : str) : option str :=
  match readFile E (Path.join (Path.join (default_base E) agent)
                      (lit "IDENTITY.md")) with
  | inr content => Some content
  | inl _ => None
  end.

(** [rest] does not start with a code unit of the class. *)
Definition stops (p : char16 -> bool) (rest : str) : Prop :=
  match rest with
  | [] => True
  | c :: _ => p c = false
  end.

(** Every value held so far is trimmed. *)
Definition values_trimmed (values : list (option str)) : Prop :=
  forall v, In (Some v) values -> trim v = v.

(** The URL a request is posted to. *)
Definition request_url (r : Request) : str :=
  match r with
  | JsonPost url _ => url
  | FilePost url _ _ _ _ => url
  end.

(** A chunk that is not blank. *)
Definition visible (chunk : str) : bool := truthy (trim chunk).


(** Request [r] goes to the endpoint [u] and carries the identity of the
    options: their user name and avatar when these are non-empty strings,
    and neither field otherwise. *)
Definition same_envelope (P : Platform) (u : URL P) (opts : WebhookSendOptions)
    (r : Request) : Prop :=
  request_url r = URL_toString P u
  /\ payload_username (request_payload r) = if_truthy (identity_username opts)
  /\ avatar_url (request_payload r) = if_truthy (identity_avatarUrl opts).

(** A request as the adapter sends them: no embeds, and a user name that
    is present and not blank. *)
Definition branded (r : Request) : Prop :=
  payload_embeds (request_payload r) = None
  /\ exists u, payload_username (request_payload r) = Some u /\ tight u.
(* ================================================================== *)
(** * Properties: strings *)
(* ================================================================== *)

Lemma startsWith_app (p r : str) : startsWith (p ++ r) p = true.
Proof.
  induction p as [|a p IH]; simpl; [reflexivity|].
  now rewrite N.eqb_refl, IH.
Qed.

Lemma startsWith_inv (p s : str) :
  startsWith s p = true -> exists r, s = p ++ r.
Proof.
  revert s; induction p as [|a p IH]; intros s H.
  - now exists s.
  - destruct s as [|b s]; simpl in H; [discriminate|].
    apply andb_prop in H as [Hab Hs].
    apply N.eqb_eq in Hab; subst b.
    destruct (IH _ Hs) as [r ->]. now exists r.
Qed.

Lemma startsWith_iff (p s : str) :
  startsWith s p = true <-> exists r, s = p ++ r.
Proof.
  split; [apply startsWith_inv|].
  intros [r ->]; apply startsWith_app.
Qed.

Lemma str_eqb_eq (a b : str) : str_eqb a b = true <-> a = b.
Proof.
  unfold str_eqb; destruct (list_eq_dec N.eq_dec a b); split; congruence.
Qed.

Lemma isDigit_spec (c : char16) : isDigit c = true <-> 0x30 <= c <= 0x39.
Proof.
  unfold isDigit; rewrite andb_true_iff, !N.leb_le; tauto.
Qed.

Lemma isSnowflake_spec (t : str) : isSnowflake t = true <-> snowflake t.
Proof.
  unfold isSnowflake, snowflake.
  rewrite !andb_true_iff, forallb_forall, Forall_forall, !Nat.leb_le.
  split.
  - intros [[Hd H17] H20]. split; [|lia].
    intros c Hc. apply isDigit_spec, Hd, Hc.
  - intros [Hd [H17 H20]]. split; [split|]; [|lia|lia].
    intros c Hc. apply isDigit_spec, Hd, Hc.
Qed.

(* ================================================================== *)
(** * Properties: address resolver *)
(* ================================================================== *)

Example extract_prefixed :
  extractChannelId (lit "  channel: 123 ") = Some (lit "123").
Proof. reflexivity. Qed.

Example extract_snowflake :
  extractChannelId (lit "12345678901234567 ") = Some (lit "12345678901234567").
Proof. reflexivity. Qed.

Example extract_short_number : extractChannelId (lit "1234567890123456") = None.
Proof. reflexivity. Qed.

Example extract_empty_remainder : extractChannelId (lit "channel:") = Some [].
Proof. reflexivity. Qed.

Example extract_user_target : extractChannelId (lit "user:123456789012345678") = None.
Proof. reflexivity. Qed.

(** C6.  The three rules of the address resolver, in order: an address that
    after trimming starts with ["channel:"] resolves to the trimmed
    remainder; otherwise a trimmed address of 17 to 20 digits resolves to
    itself; every other address resolves to nothing. *)
Theorem C6_extractChannelId_rules (to : str) :
  (forall rest, trim to = lit "channel:" ++ rest ->
     extractChannelId to = Some (trim rest))
  /\ (~ has_channel_prefix (trim to) -> snowflake (trim to) ->
        extractChannelId to = Some (trim to))
  /\ (~ has_channel_prefix (trim to) -> ~ snowflake (trim to) ->
        extractChannelId to = None).
Proof.
  unfold extractChannelId.
  repeat split.
  - intros rest Hrest. rewrite Hrest, startsWith_app. reflexivity.
  - intros Hno Hsnow.
    destruct (startsWith (trim to) (lit "channel:")) eqn:Hp.
    + exfalso; apply Hno, startsWith_inv, Hp.
    + apply isSnowflake_spec in Hsnow. now rewrite Hsnow.
  - intros Hno Hsnow.
    destruct (startsWith (trim to) (lit "channel:")) eqn:Hp.
    + exfalso; apply Hno, startsWith_inv, Hp.
    + destruct (isSnowflake (trim to)) eqn:Hs; [|reflexivity].
      exfalso; apply Hsnow, isSnowflake_spec, Hs.
Qed.

(** The three rules at three addresses. *)
Lemma C6_extractChannelId_rules_witness :
  extractChannelId (lit " channel: 42 ") = Some (lit "42")
  /\ extractChannelId (lit "123456789012345678") = Some (lit "123456789012345678")
  /\ extractChannelId (lit "#general") = None.
Proof.
  split; [|split].
  - apply (proj1 (C6_extractChannelId_rules (lit " channel: 42 ")) (lit " 42")).
    reflexivity.
  - apply (proj1 (proj2 (C6_extractChannelId_rules (lit "123456789012345678")))).
    + intros [rest H]; vm_compute in H; discriminate.
    + apply isSnowflake_spec; reflexivity.
  - apply (proj2 (proj2 (C6_extractChannelId_rules (lit "#general")))).
    + intros [rest H]; vm_compute in H; discriminate.
    + intros H; apply isSnowflake_spec in H; vm_compute in H; discriminate.
Defined.

(* ================================================================== *)
(** * Properties: the profile line pattern *)
(* ================================================================== *)

Section RegexFacts.
Context {A : Type}.

Lemma re_star_sound (p : char16 -> bool) (k : str -> option A) (s : str) (r : A) :
  re_star p k s = Some r ->
  exists pre rest, s = pre ++ rest /\ forallb p pre = true /\ k rest = Some r.
Proof.
  induction s as [|c s IH]; simpl; intros H.
  - exists [], []; repeat split; auto.
  - destruct (p c) eqn:Hc.
    + destruct (re_star p k s) as [r'|] eqn:Hs.
      * injection H as <-.
        destruct (IH eq_refl) as (pre & rest & -> & Hp & Hk).
        exists (c :: pre), rest; simpl; rewrite Hc; repeat split; auto.
      * exists [], (c :: s); repeat split; auto.
    + exists [], (c :: s); repeat split; auto.
Qed.

Lemma re_more_sound (p : char16 -> bool) (k : str -> str -> option A)
    (s acc : str) (r : A) :
  re_more p k acc s = Some r ->
  exists pre rest, s = pre ++ rest /\ forallb p pre = true
                   /\ k (acc ++ pre) rest = Some r.
Proof.
  revert acc; induction s as [|c s IH]; simpl; intros acc H.
  - exists [], []; rewrite (app_nil_r acc); repeat split; auto.
  - destruct (p c) eqn:Hc.
    + destruct (re_more p k (acc ++ [c]) s) as [r'|] eqn:Hs.
      * injection H as <-.
        destruct (IH _ Hs) as (pre & rest & -> & Hp & Hk).
        exists (c :: pre), rest; simpl; rewrite Hc.
        rewrite <- app_assoc in Hk; repeat split; auto.
      * exists [], (c :: s); rewrite (app_nil_r acc); repeat split; auto.
    + exists [], (c :: s); rewrite (app_nil_r acc); repeat split; auto.
Qed.

Lemma re_plus_group_sound (p : char16 -> bool) (k : str -> str -> option A)
    (s : str) (r : A) :
  re_plus_group p k s = Some r ->
  exists grp rest, s = grp ++ rest /\ grp <> [] /\ forallb p grp = true
                   /\ k grp rest = Some r.
Proof.
  destruct s as [|c s]; simpl; [discriminate|].
  destruct (p c) eqn:Hc; [|discriminate].
  intros H. destruct (re_more_sound _ _ _ _ _ H) as (pre & rest & -> & Hp & Hk).
  exists (c :: pre), rest; simpl; rewrite Hc.
  repeat split; auto; discriminate.
Qed.

Lemma re_lit_sound (l : str) (k : str -> option A) (s : str) (r : A) :
  re_lit l k s = Some r -> exists rest, s = l ++ rest /\ k rest = Some r.
Proof.
  unfold re_lit. destruct (startsWith s l) eqn:Hp; [|discriminate].
  destruct (startsWith_inv _ _ Hp) as [rest ->].
  rewrite skipn_app, skipn_all, Nat.sub_diag; simpl.
  intros H; exists rest; auto.
Qed.

Lemma re_end_sound (r r' : A) (s : str) :
  re_end r s = Some r' -> s = [] /\ r = r'.
Proof. destruct s; simpl; [intros [= ->]; auto | discriminate]. Qed.

End RegexFacts.

Lemma matchIdentityLine_sound (line field value : str) :
  matchIdentityLine line = Some (field, value) -> field_line line field value.
Proof.
  unfold matchIdentityLine; intros H.
  apply re_star_sound in H as (ws1 & r1 & -> & Hws1 & H).
  apply re_lit_sound in H as (r2 & -> & H).
  apply re_star_sound in H as (ws2 & r3 & -> & Hws2 & H).
  apply re_lit_sound in H as (r4 & -> & H).
  apply re_plus_group_sound in H as (f & r5 & -> & Hf & Hfw & H).
  apply re_lit_sound in H as (r6 & -> & H).
  apply re_star_sound in H as (ws3 & r7 & -> & Hws3 & H).
  apply re_plus_group_sound in H as (v & r8 & -> & Hv & Hvd & H).
  apply re_end_sound in H as [-> [= <- <-]].
  exists ws1, ws2, ws3. rewrite app_nil_r. repeat split; auto.
Qed.

Lemma mentions_name_app (pre s : str) :
  mentions_name s = true -> mentions_name (pre ++ s) = true.
Proof.
  intros H. induction pre as [|c pre IH]; simpl; [exact H|].
  rewrite IH. apply orb_true_r.
Qed.

(** A line that is a [Name] field mentions the name label. *)
Lemma name_line_mentions_name (line field value : str) :
  field_line line field value -> toLowerCase field = lit "name" ->
  mentions_name line = true.
Proof.
  intros (ws1 & ws2 & ws3 & -> & _) Hname.
  apply mentions_name_app. apply (mentions_name_app (lit "-")).
  apply mentions_name_app. apply (mentions_name_app (lit "**")).
  assert (Hlen : List.length field = 4%nat).
  { apply (f_equal (@List.length _)) in Hname.
    unfold toLowerCase in Hname. now rewrite length_map in Hname. }
  destruct field as [|a [|b [|c [|d [|e field]]]]]; try discriminate Hlen.
  simpl. simpl in Hname. unfold toLowerCase in Hname. simpl in Hname.
  rewrite Hname. reflexivity.
Qed.

(** A document none of whose lines mentions the name label has no [Name]
    field. *)
Lemma no_mention_no_name_field (content : str) :
  forallb (fun line => negb (mentions_name line)) (split_lines content) = true ->
  ~ has_name_field content.
Proof.
  intros Hall (line & field & value & Hin & Hfl & Hname).
  rewrite forallb_forall in Hall. specialize (Hall line Hin).
  rewrite (name_line_mentions_name line field value Hfl Hname) in Hall.
  discriminate.
Qed.

Lemma parse_line_keeps_no_name (st : ParseState) (line : str) :
  st_name st = None ->
  (forall field value, field_line line field value ->
                       toLowerCase field <> lit "name") ->
  st_name (parse_line st line) = None.
Proof.
  intros Hst Hno. unfold parse_line.
  destruct (matchIdentityLine line) as [[field value]|] eqn:Hm; [|exact Hst].
  apply matchIdentityLine_sound in Hm.
  destruct (str_eqb (toLowerCase field) (lit "name")) eqn:Hn.
  - apply str_eqb_eq in Hn. now destruct (Hno _ _ Hm).
  - repeat match goal with
           | |- context [if ?b then _ else _] => destruct b
           end; exact Hst.
Qed.

Lemma fold_parse_keeps_no_name (lines : list str) (st : ParseState) :
  st_name st = None ->
  (forall line field value, In line lines -> field_line line field value ->
                            toLowerCase field <> lit "name") ->
  st_name (fold_left parse_line lines st) = None.
Proof.
  revert st; induction lines as [|l lines IH]; intros st Hst Hno; simpl.
  - exact Hst.
  - apply IH.
    + apply parse_line_keeps_no_name; [exact Hst|].
      intros f v; apply Hno; now left.
    + intros line f v Hin; apply Hno; now right.
Qed.

Lemma parseIdentityMd_no_name (content : str) :
  ~ has_name_field content -> parseIdentityMd content = None.
Proof.
  intros Hno. unfold parseIdentityMd.
  rewrite fold_parse_keeps_no_name; [reflexivity|reflexivity|].
  intros line f v Hin Hfl Hname. apply Hno. now exists line, f, v.
Qed.

Lemma loadAgentIdentity_total (E : IdentityEnv) (workspaceDir : str) :
  exists r, loadAgentIdentity E workspaceDir = inr r.
Proof.
  unfold loadAgentIdentity, try_catch, res_bind.
  destruct (readFile E _); eauto.
Qed.

Lemma resolveWebhookIdentity_default_total (E : IdentityEnv) (agentId : str) :
  exists r, resolveWebhookIdentity E agentId None = inr r.
Proof.
  unfold resolveWebhookIdentity, resolveAgentIdentityById, resolveWorkspaceDir,
    resolveBase, nullish.
  destruct (env_HOME E) as [h|]; simpl.
  - destruct (truthy h); simpl;
      match goal with
      | |- context [loadAgentIdentity E ?d] =>
          destruct (loadAgentIdentity_total E d) as [[i|] ->]; simpl; eauto
      end.
  - match goal with
    | |- context [loadAgentIdentity E ?d] =>
        destruct (loadAgentIdentity_total E d) as [[i|] ->]; simpl; eauto
    end.
Qed.

(* ================================================================== *)
(** * Properties: agent identity *)
(* ================================================================== *)

Example parse_ember :
  parseIdentityMd Demo.ember_md
  = Some {| name := lit "Ember"; emoji := Some Demo.fire; creature := None;
            vibe := Some (lit "warm"); avatar := None |}.
Proof. reflexivity. Qed.

Example parse_last_occurrence_wins :
  option_map name
    (parseIdentityMd (lit "- **Name:** A" ++ [0x0A] ++ lit "- **NAME:** B"))
  = Some (lit "B").
Proof. reflexivity. Qed.

Example parse_without_name :
  parseIdentityMd (lit "- **Emoji:** x" ++ [0x0A] ++ lit "- **Vibe:** calm") = None.
Proof. reflexivity. Qed.

(** C7.  Resolving an identity from a workspace never raises.  When the
    profile document cannot be read, whatever the error, the result is no
    identity; when it can be read and has no [Name] field, the result is
    no identity whatever other fields it has; and resolution as the
    adapter calls it (agent identifier alone) never raises either. *)
Theorem C7_identity_resolution_never_raises (E : IdentityEnv) :
  (forall workspaceDir, exists r, loadAgentIdentity E workspaceDir = inr r)
  /\ (forall workspaceDir e,
        readFile E (Path.join workspaceDir (lit "IDENTITY.md")) = inl e ->
        loadAgentIdentity E workspaceDir = inr None)
  /\ (forall workspaceDir content,
        readFile E (Path.join workspaceDir (lit "IDENTITY.md")) = inr content ->
        ~ has_name_field content ->
        loadAgentIdentity E workspaceDir = inr None)
  /\ (forall content, ~ has_name_field content -> parseIdentityMd content = None)
  /\ (forall agentId, exists r, resolveWebhookIdentity E agentId None = inr r).
Proof.
  split; [|split; [|split; [|split]]].
  - apply loadAgentIdentity_total.
  - intros d e He. unfold loadAgentIdentity; now rewrite He.
  - intros d content Hc Hno. unfold loadAgentIdentity; rewrite Hc; simpl.
    now rewrite parseIdentityMd_no_name.
  - apply parseIdentityMd_no_name.
  - apply resolveWebhookIdentity_default_total.
Qed.

(** C7 at a workspace whose profile is missing, and at a profile that has
    an emoji and a vibe and no name. *)
Lemma C7_identity_resolution_never_raises_witness :
  loadAgentIdentity {| env_HOME := None; readFile := Demo.files [] |}
    (lit "/home/u/workspace/ghost") = inr None
  /\ parseIdentityMd (lit "- **Emoji:** x" ++ [0x0A] ++ lit "- **Vibe:** calm")
     = None.
Proof.
  pose proof (C7_identity_resolution_never_raises
                {| env_HOME := None; readFile := Demo.files [] |})
    as (_ & Hread & _ & Hparse & _).
  split.
  - apply (Hread (lit "/home/u/workspace/ghost")
                 (External (lit "ENOENT: no such file or directory"))).
    reflexivity.
  - apply Hparse. apply no_mention_no_name_field. reflexivity.
Defined.

Example toWebhookIdentity_ember :
  toWebhookIdentity
    {| name := lit "Ember"; emoji := Some Demo.fire; creature := None;
       vibe := None; avatar := None |} None
  = {| username := Some (Demo.fire ++ lit " Ember"); avatarUrl := None |}.
Proof. reflexivity. Qed.

(** C8, as stated, fails: a profile whose emoji line holds only a blank
    resolves to an identity whose emoji field is present and empty, and
    its display name is the bare name, not a space followed by the name. *)
Lemma C8_blank_emoji_counterexample :
  exists i,
    parseIdentityMd blank_emoji_md = Some i
    /\ emoji i = Some []
    /\ displayName_as_specified i = lit " Ember"
    /\ username (toWebhookIdentity i None) = Some (lit "Ember")
    /\ username (toWebhookIdentity i None) <> Some (displayName_as_specified i).
Proof.
  eexists. split; [reflexivity|].
  repeat split; discriminate.
Qed.

(** C8, amended.  The display name is the emoji, one space and the name when
    the emoji field is present and not empty, and exactly the name when it
    is absent or empty; the profile [Name: Ember], [Emoji: fire] displays
    as the fire emoji, a space, [Ember].  The avatar is the override when
    one is supplied, else the profile's avatar field, else absent. *)
Theorem C8_display_identity (i : AgentIdentity) (avatarUrlOverride : option str) :
  (forall e, emoji i = Some e -> e <> [] ->
     username (toWebhookIdentity i avatarUrlOverride) = Some (e ++ lit " " ++ name i))
  /\ (emoji i = None \/ emoji i = Some [] ->
        username (toWebhookIdentity i avatarUrlOverride) = Some (name i))
  /\ (forall o, avatarUrlOverride = Some o ->
        avatarUrl (toWebhookIdentity i avatarUrlOverride) = Some o)
  /\ (avatarUrlOverride = None ->
        avatarUrl (toWebhookIdentity i avatarUrlOverride) = avatar i)
  /\ option_map (fun p => username (toWebhookIdentity p None))
        (parseIdentityMd
           (lit "- **Name:** Ember" ++ [0x0A] ++ lit "- **Emoji:** " ++ Demo.fire))
      = Some (Some (Demo.fire ++ lit " Ember")).
Proof.
  unfold toWebhookIdentity; simpl.
  split; [|split; [|split; [|split]]].
  - intros e He Hne. rewrite He. destruct e; [congruence|reflexivity].
  - intros [He|He]; rewrite He; reflexivity.
  - intros o ->; reflexivity.
  - intros ->; reflexivity.
  - reflexivity.
Qed.

(** C8 (amended) at the Ember profile, with and without an avatar override. *)
Lemma C8_display_identity_witness :
  username (toWebhookIdentity
              {| name := lit "Ember"; emoji := Some Demo.fire; creature := None;
                 vibe := None; avatar := Some (lit "https://cdn/e.png") |}
              (Some (lit "https://cdn/o.png")))
  = Some (Demo.fire ++ lit " Ember")
  /\ avatarUrl (toWebhookIdentity
                  {| name := lit "Ember"; emoji := None; creature := None;
                     vibe := None; avatar := Some (lit "https://cdn/e.png") |}
                  None)
     = Some (lit "https://cdn/e.png").
Proof.
  split.
  - exact (proj1 (C8_display_identity
                    {| name := lit "Ember"; emoji := Some Demo.fire;
                       creature := None; vibe := None;
                       avatar := Some (lit "https://cdn/e.png") |}
                    (Some (lit "https://cdn/o.png")))
                 Demo.fire eq_refl ltac:(discriminate)).
  - exact (proj1 (proj2 (proj2 (proj2 (C8_display_identity
                    {| name := lit "Ember"; emoji := None;
                       creature := None; vibe := None;
                       avatar := Some (lit "https://cdn/e.png") |}
                    None)))) eq_refl).
Defined.

Example workspace_from_home :
  resolveWorkspaceDir {| env_HOME := Some (lit "/home/u"); readFile := Demo.files [] |}
    (lit "ember") None = inr (lit "/home/u/workspace/ember").
Proof. reflexivity. Qed.

Example workspace_default :
  resolveWorkspaceDir {| env_HOME := None; readFile := Demo.files [] |}
    (lit "ember") None = inr (lit "/home/clawd/workspace/ember").
Proof. reflexivity. Qed.

(** C2 fails on the code.  With the override [/tmp/ws] and [HOME=/home/u]
    the workspace of agent [ember] is [/home/u/workspace/ember], not
    [/tmp/ws/ember]: the override only takes part in the test that chooses
    between the home directory and the fixed default.  For every supplied
    non-empty override the workspace is computed from [HOME] alone, and
    when [HOME] is unset the call throws.  Without an override the
    workspace is as specified. *)
Theorem C2_workspace_override_ignored :
  resolveWorkspaceDir {| env_HOME := Some (lit "/home/u"); readFile := Demo.files [] |}
    (lit "ember") (Some (lit "/tmp/ws")) = inr (lit "/home/u/workspace/ember")
  /\ Path.join (lit "/tmp/ws") (lit "ember") = lit "/tmp/ws/ember"
  /\ (forall E agentId b h, b <> [] -> env_HOME E = Some h ->
        resolveWorkspaceDir E agentId (Some b)
        = inr (Path.join (Path.join h (lit "workspace")) agentId))
  /\ (forall E agentId b, b <> [] -> env_HOME E = None ->
        exists m, resolveWorkspaceDir E agentId (Some b) = inl (TypeError m))
  /\ (forall E agentId h, h <> [] -> env_HOME E = Some h ->
        resolveWorkspaceDir E agentId None
        = inr (Path.join (Path.join h (lit "workspace")) agentId))
  /\ (forall E agentId, env_HOME E = None \/ env_HOME E = Some [] ->
        resolveWorkspaceDir E agentId None
        = inr (Path.join (lit "/home/clawd/workspace") agentId)).
Proof.
  unfold resolveWorkspaceDir, resolveBase.
  split; [reflexivity|split; [reflexivity|]].
  split; [|split; [|split]].
  - intros E agentId b h Hb Hh. rewrite Hh.
    destruct b; [congruence|reflexivity].
  - intros E agentId b Hb Hh. rewrite Hh.
    destruct b; [congruence|]. simpl. eauto.
  - intros E agentId h Hh HE. rewrite HE.
    destruct h; [congruence|reflexivity].
  - intros E agentId [HE|HE]; rewrite HE; reflexivity.
Qed.

(* ================================================================== *)
(** * Properties: running the transport *)
(* ================================================================== *)

Lemma requests_of_app (a b : Trace) :
  requests_of (a ++ b) = requests_of a ++ requests_of b.
Proof.
  induction a as [|ev a IH]; simpl; [reflexivity|].
  destruct ev; simpl; now rewrite IH.
Qed.

Lemma requests_of_fetches (l : list Request) : requests_of (map Fetch l) = l.
Proof. induction l; simpl; congruence. Qed.

(** What a response is read as is a result exactly when it was accepted. *)
Lemma read_accepted (P : Platform) (failure : str) (history : list Request)
    (req : Request) (r : WebhookSendResult) :
  res_bind (fetch P history req) (read_response failure) = inr r
  <-> exists j, accepted P history req j /\ r = result_of_json j.
Proof.
  unfold accepted, read_response, res_bind, result_of_json. split.
  - destruct (fetch P history req) as [e|resp]; [discriminate|].
    destruct (ok resp) eqn:Hok; simpl; [|discriminate].
    destruct (response_json resp) as [e|j] eqn:Hj; [discriminate|].
    intros [= <-]. exists j; split; [exists resp|]; auto.
  - intros (j & (resp & -> & Hok & Hj) & ->). now rewrite Hok, Hj.
Qed.

Lemma postWebhookMessage_run (P : Platform) (c : str) (opts : WebhookSendOptions)
    (tr : Trace) :
  postWebhookMessage P c opts tr
  = match webhook_endpoint P opts with
    | inl e => (inl e, tr)
    | inr u =>
        let req := JsonPost (URL_toString P u) (json_body c opts) in
        (res_bind (fetch P (requests_of tr) req) (read_response text_failure),
         tr ++ [Fetch req])
    end.
Proof.
  unfold postWebhookMessage, bind, await, do_fetch.
  destruct (webhook_endpoint P opts) as [e|u]; [reflexivity|]. simpl.
  destruct (fetch P _ _); reflexivity.
Qed.

Lemma postWebhookMessageWithFile_run (P : Platform) (c : str) (media : WebMedia)
    (opts : WebhookSendOptions) (tr : Trace) :
  postWebhookMessageWithFile P c media opts tr
  = match webhook_endpoint P opts with
    | inl e => (inl e, tr)
    | inr u =>
        let req :=
          FilePost (URL_toString P u) (file_payload c opts) (buffer media)
            (match mimeType media with
             | Some t => t
             | None => lit "application/octet-stream"
             end)
            (match fileName media with
             | Some n => n
             | None => lit "upload"
             end) in
        (res_bind (fetch P (requests_of tr) req) (read_response file_failure),
         tr ++ [Fetch req])
    end.
Proof.
  unfold postWebhookMessageWithFile, bind, await, do_fetch.
  destruct (webhook_endpoint P opts) as [e|u]; [reflexivity|]. simpl.
  destruct (fetch P _ _); reflexivity.
Qed.

Lemma endpoint_with_embeds (P : Platform) (opts : WebhookSendOptions)
    (e : option (list Embed)) :
  webhook_endpoint P (with_embeds opts e) = webhook_endpoint P opts.
Proof. reflexivity. Qed.

Lemma text_loop_run (P : Platform) (u : URL P) (opts : WebhookSendOptions)
    (chunks : list str) :
  webhook_endpoint P opts = inr u ->
  forall lastResult first tr,
    text_loop P chunks opts lastResult first tr
    = let (out, sent) :=
        post_all P text_failure (requests_of tr)
          (text_requests P u opts first chunks) lastResult in
      (out, tr ++ map Fetch sent).
Proof.
  intros Hu. induction chunks as [|c chunks IH]; intros lastResult first tr; simpl.
  - unfold ret. now rewrite app_nil_r.
  - unfold bind. rewrite postWebhookMessage_run, endpoint_with_embeds, Hu.
    cbv zeta. fold (text_request P u opts first c).
    destruct (res_bind _ _) as [e|r]; [reflexivity|].
    rewrite IH, requests_of_app. simpl.
    destruct (post_all _ _ _ _ _) as [out sent].
    now rewrite <- app_assoc.
Qed.

Lemma text_loop_no_endpoint (P : Platform) (e : JsError) (opts : WebhookSendOptions)
    (c : str) (chunks : list str) lastResult first tr :
  webhook_endpoint P opts = inl e ->
  text_loop P (c :: chunks) opts lastResult first tr = (inl e, tr).
Proof.
  intros He. simpl. unfold bind.
  now rewrite postWebhookMessage_run, endpoint_with_embeds, He.
Qed.

Section PostAll.
Context (P : Platform) (failure : str).

Lemma post_all_prefix (reqs : list Request) :
  forall history lastResult,
    exists k, (k <= List.length reqs)%nat
              /\ snd (post_all P failure history reqs lastResult) = firstn k reqs.
Proof.
  induction reqs as [|req reqs IH]; intros history lastResult; simpl.
  - exists 0%nat; auto.
  - destruct (res_bind _ _) as [e|r].
    + exists 1%nat; simpl; split; [lia|reflexivity].
    + destruct (IH (history ++ [req]) (Some r)) as (k & Hk & Hs).
      destruct (post_all _ _ _ _ _) as [out sent]; simpl in *.
      exists (S k); simpl; split; [lia|congruence].
Qed.

Lemma post_all_returns (reqs : list Request) :
  forall history lastResult result,
    fst (post_all P failure history reqs lastResult) = inr result ->
    snd (post_all P failure history reqs lastResult) = reqs
    /\ match reqs with
       | [] => result = lastResult
       | _ :: _ =>
           exists pre req j,
             reqs = pre ++ [req] /\ accepted P (history ++ pre) req j
             /\ result = Some (result_of_json j)
       end.
Proof.
  induction reqs as [|req reqs IH]; intros history lastResult result; simpl.
  - intros [= <-]; auto.
  - destruct (res_bind _ _) as [e|r] eqn:Hr; [discriminate|].
    specialize (IH (history ++ [req]) (Some r) result).
    destruct (post_all _ _ _ _ _) as [out sent]; simpl in *.
    intros Hout. destruct (IH Hout) as [-> Hlast]. split; [reflexivity|].
    destruct reqs as [|req' reqs'].
    + apply read_accepted in Hr as (j & Hj & ->).
      exists [], req, j. rewrite app_nil_r. subst result. auto.
    + destruct Hlast as (pre & rq & j & Hp & Hj & ->).
      exists (req :: pre), rq, j. rewrite Hp.
      rewrite <- app_assoc in Hj. auto.
Qed.

Lemma post_all_sent_accepted (reqs : list Request) :
  forall history lastResult pre req post,
    snd (post_all P failure history reqs lastResult) = pre ++ req :: post ->
    post <> [] ->
    exists j, accepted P (history ++ pre) req j.
Proof.
  induction reqs as [|rq reqs IH]; intros history lastResult pre req post; simpl.
  - intros H; destruct pre; discriminate H.
  - destruct (res_bind _ _) as [e|r] eqn:Hr.
    + simpl. intros H Hpost.
      destruct pre as [|p pre]; simpl in H.
      * injection H as _ H. congruence.
      * injection H as _ H. destruct pre; discriminate H.
    + specialize (IH (history ++ [rq]) (Some r)).
      destruct (post_all _ _ _ _ _) as [out sent]; simpl in *.
      intros H Hpost. destruct pre as [|p pre]; simpl in H.
      * injection H as <- _. rewrite app_nil_r.
        apply read_accepted in Hr as (j & Hj & _). now exists j.
      * injection H as <- H.
        destruct (IH pre req post H Hpost) as [j Hj].
        exists j. now rewrite <- app_assoc in Hj.
Qed.

Lemma post_all_live (reqs : list Request) :
  (forall history req, exists j, accepted P history req j) ->
  forall history lastResult,
    exists result,
      fst (post_all P failure history reqs lastResult) = inr result
      /\ (reqs <> [] -> result <> None).
Proof.
  intros Hacc. induction reqs as [|req reqs IH]; intros history lastResult; simpl.
  - exists lastResult; split; congruence.
  - destruct (Hacc history req) as [j Hj].
    assert (Hr : res_bind (fetch P history req) (read_response failure)
                 = inr (result_of_json j))
      by (apply read_accepted; eauto).
    rewrite Hr.
    destruct (IH (history ++ [req]) (Some (result_of_json j))) as (result & Hres & Hne).
    exists result; split.
    + destruct (post_all _ _ _ _ _) as [out sent]; exact Hres.
    + intros _. destruct reqs; [|apply Hne; discriminate].
      simpl in Hres. congruence.
Qed.

Lemma post_all_throws (reqs : list Request) :
  forall history lastResult e,
    fst (post_all P failure history reqs lastResult) = inl e ->
    exists pre req post,
      reqs = pre ++ req :: post
      /\ snd (post_all P failure history reqs lastResult) = pre ++ [req]
      /\ res_bind (fetch P (history ++ pre) req) (read_response failure) = inl e.
Proof.
  induction reqs as [|rq reqs IH]; intros history lastResult e; simpl.
  - discriminate.
  - destruct (res_bind _ _) as [e'|r] eqn:Hr.
    + simpl. intros [= <-]. exists [], rq, reqs. rewrite app_nil_r. auto.
    + specialize (IH (history ++ [rq]) (Some r) e).
      destruct (post_all _ _ _ _ _) as [out sent]; simpl in *.
      intros Hout. destruct (IH Hout) as (pre & req & post & -> & -> & He).
      exists (rq :: pre), req, post. rewrite <- app_assoc in He. auto.
Qed.

End PostAll.

Lemma Forall_prefix {A} (Q : A -> Prop) (k : nat) (l : list A) :
  Forall Q l -> Forall Q (firstn k l).
Proof.
  intros H; revert k; induction H; intros [|k]; simpl; constructor; auto.
Qed.

Lemma contents_text_requests P u opts first chunks :
  contents (text_requests P u opts first chunks) = map Some chunks.
Proof.
  revert first; induction chunks as [|c chunks IH]; intros first; simpl;
    [reflexivity|]. unfold contents in IH. now rewrite IH.
Qed.

Lemma text_requests_json P u opts first chunks :
  Forall (fun r => is_file_post r = false) (text_requests P u opts first chunks).
Proof.
  revert first; induction chunks; intros first; simpl; constructor; auto.
Qed.

Lemma text_requests_later_no_embeds P u opts chunks :
  Forall (fun r => payload_embeds (request_payload r) = None)
         (text_requests P u opts false chunks).
Proof. induction chunks; simpl; constructor; auto. Qed.

Lemma text_requests_length P u opts first chunks :
  List.length (text_requests P u opts first chunks) = List.length chunks.
Proof. revert first; induction chunks; intros; simpl; auto. Qed.

Lemma trim_nil : trim [] = [].
Proof. reflexivity. Qed.

Lemma not_blank_truthy (text : str) : trim text <> [] -> truthy text = true.
Proof. destruct text; [intros H; now destruct H|reflexivity]. Qed.

Lemma truthy_trim (text : str) :
  trim text <> [] -> negb (truthy (trim text)) = false.
Proof. destruct (trim text); [intros H; now destruct H|reflexivity]. Qed.

Lemma or_whole_text_nonempty (chunks : list str) (text : str) :
  truthy text = true -> or_whole_text chunks text <> [].
Proof.
  intros Ht. unfold or_whole_text. destruct chunks; [|discriminate].
  rewrite Ht. discriminate.
Qed.

Lemma sendDiscordWebhookText_blank P text opts tr :
  trim text = [] ->
  sendDiscordWebhookText P text opts tr = (inl blank_text_error, tr).
Proof. intros H. unfold sendDiscordWebhookText. now rewrite H. Qed.

Lemma sendDiscordWebhookText_run P u text opts tr :
  trim text <> [] ->
  webhook_endpoint P opts = inr u ->
  sendDiscordWebhookText P text opts tr
  = let (out, sent) :=
      post_all P text_failure (requests_of tr)
        (text_requests P u opts true (or_whole_text (chunk_text P text opts) text))
        None in
    (match out with
     | inl e => inl e
     | inr (Some r) => inr r
     | inr None => inl empty_result_error
     end, tr ++ map Fetch sent).
Proof.
  intros Ht Hu. unfold sendDiscordWebhookText.
  rewrite (truthy_trim _ Ht). cbv zeta. unfold bind.
  rewrite (text_loop_run P u opts _ Hu).
  destruct (post_all _ _ _ _ _) as [[e|[r|]] sent]; reflexivity.
Qed.

Lemma sendDiscordWebhookText_no_endpoint P e text opts tr :
  trim text <> [] ->
  webhook_endpoint P opts = inl e ->
  sendDiscordWebhookText P text opts tr = (inl e, tr).
Proof.
  intros Ht He. unfold sendDiscordWebhookText.
  rewrite (truthy_trim _ Ht). cbv zeta. unfold bind.
  pose proof (or_whole_text_nonempty (chunk_text P text opts) text
                (not_blank_truthy _ Ht)) as Hne.
  destruct (or_whole_text _ _) as [|c chunks]; [congruence|].
  now rewrite (text_loop_no_endpoint P e opts c chunks None true tr He).
Qed.

(* ================================================================== *)
(** * Properties: text sends *)
(* ================================================================== *)

(** C4.  A text that is not blank is sent chunk by chunk: the network calls
    that go out are calls for the first chunks of the text, one call per
    chunk, in chunk order; a call goes out only after every call before it
    was accepted; when the send returns a result, every chunk had its call
    and the result is the answer to the last call; and the send does
    return a result when the endpoint is a URL and the network accepts
    every call. *)
Theorem C4_text_chunks_in_order (P : Platform) (text : str)
    (opts : WebhookSendOptions) (tr : Trace) :
  trim text <> [] ->
  let chunks := or_whole_text (chunk_text P text opts) text in
  let run := sendDiscordWebhookText P text opts tr in
  exists sent : list Request,
    snd run = tr ++ map Fetch sent
    /\ Forall (fun r => is_file_post r = false) sent
    /\ (exists k, (k <= List.length chunks)%nat
                  /\ contents sent = map Some (firstn k chunks))
    /\ (forall pre req post, sent = pre ++ req :: post -> post <> [] ->
          exists j, accepted P (requests_of tr ++ pre) req j)
    /\ (forall result, fst run = inr result ->
          contents sent = map Some chunks
          /\ exists pre req j,
               sent = pre ++ [req]
               /\ accepted P (requests_of tr ++ pre) req j
               /\ result = result_of_json j)
    /\ ((exists u, webhook_endpoint P opts = inr u) ->
        (forall history req, exists j, accepted P history req j) ->
        exists result, fst run = inr result).
Proof.
  intros Ht chunks run.
  destruct (webhook_endpoint P opts) as [e|u] eqn:Hu.
  - exists []. subst run.
    rewrite (sendDiscordWebhookText_no_endpoint P e text opts tr Ht Hu); simpl.
    rewrite app_nil_r. repeat split; auto.
    + exists 0%nat; split; [lia|reflexivity].
    + intros pre req post H; destruct pre; discriminate H.
    + discriminate.
    + discriminate.
    + intros [u' Hu']; discriminate Hu'.
  - subst run. rewrite (sendDiscordWebhookText_run P u text opts tr Ht Hu).
    fold chunks.
    set (reqs := text_requests P u opts true chunks).
    pose proof (post_all_prefix P text_failure reqs (requests_of tr) None)
      as (k & Hk & Hpre).
    pose proof (post_all_returns P text_failure reqs (requests_of tr) None) as Hret.
    pose proof (post_all_sent_accepted P text_failure reqs (requests_of tr) None)
      as Hacc.
    pose proof (fun H => post_all_live P text_failure reqs H (requests_of tr) None)
      as Hlive.
    assert (Hne : reqs <> []).
    { intros H. apply (f_equal (@List.length _)) in H. unfold reqs in H.
      rewrite text_requests_length in H. simpl in H.
      apply (or_whole_text_nonempty (chunk_text P text opts) text
               (not_blank_truthy _ Ht)).
      fold chunks. now apply length_zero_iff_nil. }
    destruct (post_all P text_failure (requests_of tr) reqs None) as [out sent].
    simpl in *. exists sent. split; [reflexivity|]. split; [|split; [|split; [|split]]].
    + rewrite Hpre. apply Forall_prefix, text_requests_json.
    + exists k. unfold reqs in Hk; rewrite text_requests_length in Hk.
      split; [exact Hk|].
      rewrite Hpre. unfold contents. rewrite <- firstn_map.
      fold (contents reqs). unfold reqs.
      now rewrite contents_text_requests, firstn_map.
    + exact Hacc.
    + intros result Hres.
      destruct out as [e|[r|]]; try discriminate Hres.
      injection Hres as <-.
      destruct (Hret (Some r) eq_refl) as [-> Hlast].
      split; [apply contents_text_requests|].
      destruct reqs as [|rq reqs']; [congruence|].
      destruct Hlast as (pre & req & j & Hp & Hj & [= ->]).
      exists pre, req, j. auto.
    + intros _ Hall. destruct (Hlive Hall) as (result & Hres & Hsome).
      subst out. destruct result as [r|]; [eauto|].
      now destruct (Hsome Hne).
Qed.

Lemma demo_accepts_all home fs (history : list Request) (req : Request) :
  exists j, accepted (Demo.platform home fs []) history req j.
Proof.
  exists {| id := show_number (N.of_nat (List.length history) + 1);
            channel_id := lit "555" |}.
  assert (Hn : forall n (d : Res Response), nth n [] d = d)
    by (intros [|n] d; reflexivity).
  unfold accepted; simpl; unfold Demo.scripted. rewrite Hn. unfold Demo.accept.
  eexists; repeat split.
Qed.

(** C4 on a network that accepts everything: a text of 4500 letters is
    sent as three messages and the send returns. *)
Lemma C4_text_chunks_in_order_witness :
  exists result,
    fst (sendDiscordWebhookText (Demo.platform None [] []) (Demo.letters 4500)
           Demo.plain_opts []) = inr result.
Proof.
  assert (Ht : trim (Demo.letters 4500) <> []) by (vm_compute; discriminate).
  destruct (C4_text_chunks_in_order (Demo.platform None [] []) (Demo.letters 4500)
              Demo.plain_opts [] Ht)
    as (sent & _ & _ & _ & _ & _ & Hlive).
  apply Hlive.
  - eexists; reflexivity.
  - apply demo_accepts_all.
Defined.

Example text_4500_letters :
  let run := sendDiscordWebhookText (Demo.platform None [] []) (Demo.letters 4500)
               Demo.plain_opts [] in
  map (option_map (@List.length _)) (contents (requests_of (snd run)))
  = [Some 2000; Some 2000; Some 500]%nat
  /\ fst run = inr {| messageId := lit "3"; channelId := lit "555" |}.
Proof. vm_compute. split; reflexivity. Qed.

(* ================================================================== *)
(** * Properties: media sends *)
(* ================================================================== *)

Lemma followup_loop_run (P : Platform) (u : URL P) (opts : WebhookSendOptions)
    (chunks : list str) :
  webhook_endpoint P opts = inr u ->
  forall lastResult tr,
    followup_loop P chunks opts tr
    = let (out, sent) :=
        post_all P text_failure (requests_of tr)
          (followup_requests P u opts chunks) lastResult in
      (match out with inl e => inl e | inr _ => inr tt end,
       tr ++ map Fetch sent).
Proof.
  intros Hu. induction chunks as [|c chunks IH]; intros lastResult tr; simpl.
  - unfold ret. now rewrite app_nil_r.
  - destruct (negb (truthy (trim c))); [apply IH|].
    unfold bind. rewrite postWebhookMessage_run, Hu. cbv zeta. simpl.
    destruct (res_bind _ _) as [e|r]; [reflexivity|].
    rewrite (IH (Some r)), requests_of_app. simpl.
    destruct (post_all _ _ _ _ _) as [out sent].
    now rewrite <- app_assoc.
Qed.

Lemma sendDiscordWebhookMedia_run (P : Platform) (u : URL P) (media : WebMedia)
    (text mediaUrl : str) (opts : WebhookSendOptions) (tr : Trace) :
  loadWebMedia P mediaUrl = inr media ->
  webhook_endpoint P opts = inr u ->
  sendDiscordWebhookMedia P text mediaUrl opts tr
  = let chunks := media_chunks P text opts in
    let freq := file_request P u opts (hd [] chunks) media in
    match res_bind (fetch P (requests_of tr) freq) (read_response file_failure) with
    | inl e => (inl e, tr ++ [Fetch freq])
    | inr result =>
        let (out, sent) :=
          post_all P text_failure (requests_of tr ++ [freq])
            (followup_requests P u opts (tl chunks)) None in
        (match out with inl e => inl e | inr _ => inr result end,
         tr ++ Fetch freq :: map Fetch sent)
    end.
Proof.
  intros Hm Hu. unfold sendDiscordWebhookMedia, bind, await. rewrite Hm.
  cbv zeta. fold (media_chunks P text opts).
  rewrite postWebhookMessageWithFile_run, endpoint_with_embeds, Hu. cbv zeta.
  replace (match media_chunks P text opts with c :: _ => c | [] => [] end)
    with (hd [] (media_chunks P text opts))
    by (destruct (media_chunks P text opts); reflexivity).
  change (FilePost (URL_toString P u)
            (file_payload (hd [] (media_chunks P text opts))
               (with_embeds opts (embeds opts)))
            (buffer media)
            (match mimeType media with
             | Some t => t
             | None => lit "application/octet-stream"
             end)
            (match fileName media with
             | Some n => n
             | None => lit "upload"
             end))
    with (file_request P u opts (hd [] (media_chunks P text opts)) media).
  destruct (res_bind _ _) as [e|result]; [reflexivity|].
  rewrite (followup_loop_run P u opts _ Hu None), requests_of_app. simpl.
  destruct (post_all _ _ _ _ _) as [[e|r] sent]; unfold ret;
    now rewrite <- app_assoc.
Qed.

Lemma sendDiscordWebhookMedia_no_media (P : Platform) (e : JsError)
    (text mediaUrl : str) (opts : WebhookSendOptions) (tr : Trace) :
  loadWebMedia P mediaUrl = inl e ->
  sendDiscordWebhookMedia P text mediaUrl opts tr = (inl e, tr).
Proof. intros Hm. unfold sendDiscordWebhookMedia, bind, await. now rewrite Hm. Qed.

Lemma sendDiscordWebhookMedia_no_endpoint (P : Platform) (e : JsError)
    (media : WebMedia) (text mediaUrl : str) (opts : WebhookSendOptions)
    (tr : Trace) :
  loadWebMedia P mediaUrl = inr media ->
  webhook_endpoint P opts = inl e ->
  sendDiscordWebhookMedia P text mediaUrl opts tr = (inl e, tr).
Proof.
  intros Hm He. unfold sendDiscordWebhookMedia, bind, await. rewrite Hm.
  cbv zeta. now rewrite postWebhookMessageWithFile_run, endpoint_with_embeds, He.
Qed.

Lemma followup_requests_embeds P u opts chunks :
  Forall (fun r => is_file_post r = false
                   /\ payload_embeds (request_payload r) = if_nonempty (embeds opts))
         (followup_requests P u opts chunks).
Proof.
  induction chunks as [|c chunks IH]; simpl; [constructor|].
  destruct (negb (truthy (trim c))); [assumption|].
  constructor; [split; reflexivity|assumption].
Qed.

(* ================================================================== *)
(** * Properties: what every send leaves in the trace *)
(* ================================================================== *)

Lemma tl_firstn {A} (k : nat) (l : list A) :
  exists k', tl (firstn k l) = firstn k' (tl l).
Proof.
  destruct k as [|k]; [exists 0%nat; reflexivity|].
  destruct l; [exists 0%nat; reflexivity|]. now exists k.
Qed.

Lemma hd_firstn {A} (k : nat) (l : list A) (x : A) :
  hd_error (firstn k l) = Some x -> hd_error l = Some x.
Proof. destruct k, l; simpl; congruence. Qed.

(** The calls of a text send: the first carries the options' embeds, no
    later one carries any. *)
Lemma text_send_embeds (P : Platform) (text : str) (opts : WebhookSendOptions)
    (tr : Trace) :
  exists sent,
    snd (sendDiscordWebhookText P text opts tr) = tr ++ map Fetch sent
    /\ (forall r, hd_error sent = Some r ->
          payload_embeds (request_payload r) = if_nonempty (embeds opts))
    /\ Forall (fun r => payload_embeds (request_payload r) = None) (tl sent).
Proof.
  destruct (list_eq_dec N.eq_dec (trim text) []) as [Hb|Ht].
  { exists []. rewrite (sendDiscordWebhookText_blank P text opts tr Hb); simpl.
    rewrite app_nil_r. repeat split; [discriminate|constructor]. }
  destruct (webhook_endpoint P opts) as [e|u] eqn:Hu.
  { exists []. rewrite (sendDiscordWebhookText_no_endpoint P e text opts tr Ht Hu).
    simpl. rewrite app_nil_r. repeat split; [discriminate|constructor]. }
  rewrite (sendDiscordWebhookText_run P u text opts tr Ht Hu).
  set (chunks := or_whole_text (chunk_text P text opts) text).
  destruct (post_all_prefix P text_failure (text_requests P u opts true chunks)
              (requests_of tr) None) as (k & _ & Hpre).
  destruct (post_all _ _ _ _ _) as [out sent]; simpl in *.
  exists sent. split; [reflexivity|]. subst sent. split.
  - intros r Hr. apply hd_firstn in Hr.
    destruct chunks as [|c chunks]; simpl in Hr; [discriminate|].
    injection Hr as <-. reflexivity.
  - destruct (tl_firstn k (text_requests P u opts true chunks)) as [k' ->].
    apply Forall_prefix.
    destruct chunks as [|c chunks]; simpl; [constructor|].
    apply text_requests_later_no_embeds.
Qed.

(** The calls of a media send: every one of them, the file post and each
    follow-up, carries the options' embeds. *)
Lemma media_send_embeds (P : Platform) (text mediaUrl : str)
    (opts : WebhookSendOptions) (tr : Trace) :
  exists sent,
    snd (sendDiscordWebhookMedia P text mediaUrl opts tr) = tr ++ map Fetch sent
    /\ Forall (fun r => payload_embeds (request_payload r)
                        = if_nonempty (embeds opts)) sent
    /\ (forall r, hd_error sent = Some r -> is_file_post r = true)
    /\ Forall (fun r => is_file_post r = false) (tl sent).
Proof.
  destruct (loadWebMedia P mediaUrl) as [e|media] eqn:Hm.
  { exists []. rewrite (sendDiscordWebhookMedia_no_media P e _ _ _ _ Hm); simpl.
    rewrite app_nil_r. repeat split; try constructor; discriminate. }
  destruct (webhook_endpoint P opts) as [e|u] eqn:Hu.
  { exists [].
    rewrite (sendDiscordWebhookMedia_no_endpoint P e media _ _ _ _ Hm Hu); simpl.
    rewrite app_nil_r. repeat split; try constructor; discriminate. }
  rewrite (sendDiscordWebhookMedia_run P u media text mediaUrl opts tr Hm Hu).
  cbv zeta.
  set (freq := file_request P u opts (hd [] (media_chunks P text opts)) media).
  destruct (res_bind _ _) as [e|result].
  { exists [freq]; simpl. repeat split; try constructor; auto.
    intros r [= <-]; reflexivity. }
  destruct (post_all_prefix P text_failure
              (followup_requests P u opts (tl (media_chunks P text opts)))
              (requests_of tr ++ [freq]) None) as (k & _ & Hpre).
  destruct (post_all _ _ _ _ _) as [out sent]; simpl in *.
  exists (freq :: sent); simpl. split; [reflexivity|]. subst sent.
  pose proof (followup_requests_embeds P u opts (tl (media_chunks P text opts)))
    as Hf.
  split; [|split].
  - constructor; [reflexivity|]. apply Forall_prefix.
    eapply Forall_impl; [|exact Hf]. now intros r [_ H].
  - intros r [= <-]; reflexivity.
  - apply Forall_prefix. eapply Forall_impl; [|exact Hf]. now intros r [H _].
Qed.

(** C1 fails on the code for media sends.  In a text send the embeds go
    out with the first call only, as specified.  In a media send the
    follow-up messages are posted with the options as they are, so each
    follow-up carries the embeds again: a caption of 2001 letters with one
    embed goes out as a file post and a follow-up that both carry it. *)
Theorem C1_media_followups_carry_embeds :
  (forall P text opts tr,
     exists sent,
       snd (sendDiscordWebhookText P text opts tr) = tr ++ map Fetch sent
       /\ (forall r, hd_error sent = Some r ->
             payload_embeds (request_payload r) = if_nonempty (embeds opts))
       /\ Forall (fun r => payload_embeds (request_payload r) = None) (tl sent))
  /\ (forall P text mediaUrl opts tr,
        exists sent,
          snd (sendDiscordWebhookMedia P text mediaUrl opts tr)
          = tr ++ map Fetch sent
          /\ Forall (fun r => payload_embeds (request_payload r)
                              = if_nonempty (embeds opts)) sent
          /\ (forall r, hd_error sent = Some r -> is_file_post r = true)
          /\ Forall (fun r => is_file_post r = false) (tl sent))
  /\ map (fun r => (is_file_post r, payload_embeds (request_payload r)))
       (requests_of
          (snd (sendDiscordWebhookMedia (Demo.platform None [] [])
                  (Demo.letters 2001) (lit "https://cdn.example/cat.png")
                  opts_with_embed [])))
     = [(true, Some [an_embed]); (false, Some [an_embed])].
Proof.
  split; [exact text_send_embeds|].
  split; [exact media_send_embeds|].
  vm_compute. reflexivity.
Qed.

(* ================================================================== *)
(** * Properties: failures *)
(* ================================================================== *)

Lemma all_accepted_tail P history req reqs :
  all_accepted P history (req :: reqs) ->
  (exists j, accepted P history req j) /\ all_accepted P (history ++ [req]) reqs.
Proof.
  intros H. split.
  - destruct (H [] req reqs eq_refl) as [j Hj]. rewrite app_nil_r in Hj. eauto.
  - intros pre rq post ->.
    destruct (H (req :: pre) rq post eq_refl) as [j Hj].
    exists j. now rewrite <- app_assoc.
Qed.

Lemma post_all_fail_at (P : Platform) (failure : str) (pre : list Request) :
  forall history req post lastResult e,
    all_accepted P history pre ->
    call_fails P failure (history ++ pre) req e ->
    post_all P failure history (pre ++ req :: post) lastResult
    = (inl e, pre ++ [req]).
Proof.
  induction pre as [|p pre IH]; intros history req post lastResult e Hacc Hfail;
    simpl.
  - unfold call_fails in Hfail. rewrite app_nil_r in Hfail. now rewrite Hfail.
  - apply all_accepted_tail in Hacc as [[j Hj] Hacc].
    assert (Hr : res_bind (fetch P history p) (read_response failure)
                 = inr (result_of_json j)) by (apply read_accepted; eauto).
    rewrite Hr.
    rewrite (IH (history ++ [p]) req post (Some (result_of_json j)) e Hacc).
    + reflexivity.
    + unfold call_fails in *. now rewrite <- app_assoc.
Qed.

(** A response with a status that is no success fails the call with an
    error that carries the status and the body of the response. *)
Lemma refused_call_fails (P : Platform) (failure : str) (history : list Request)
    (req : Request) (resp : Response) :
  fetch P history req = inr resp -> ok resp = false ->
  call_fails P failure history req
    (Error (failure ++ lit " (" ++ show_number (status resp) ++ lit "): "
            ++ match response_text resp with
               | inr t => t
               | inl _ => lit "unknown error"
               end)).
Proof.
  intros Hf Hok. unfold call_fails, read_response; rewrite Hf; simpl.
  now rewrite Hok.
Qed.

(** C5, as stated, fails in its media part: when the follow-up of a
    two-chunk caption is refused after the file post was accepted, the
    caller receives the follow-up's error; the result of the file post is
    not returned. *)
Lemma C5_followup_failure_hides_file_result_counterexample :
  let run := sendDiscordWebhookMedia flaky (Demo.letters 2001) cat_url
               Demo.plain_opts [] in
  (exists freq followup,
     requests_of (snd run) = [freq; followup]
     /\ is_file_post freq = true
     /\ accepted flaky [] freq {| id := lit "1"; channel_id := lit "555" |})
  /\ fst run = inl (Error (lit "Discord webhook failed (500): boom"))
  /\ fst run <> inr (result_of_json {| id := lit "1"; channel_id := lit "555" |}).
Proof.
  cbv zeta. split; [|split].
  - eexists. eexists. split; [vm_compute; reflexivity|].
    split; [reflexivity|].
    eexists. split; [vm_compute; reflexivity|]. split; reflexivity.
  - vm_compute. reflexivity.
  - vm_compute. discriminate.
Qed.

(** C5, amended.  When the call for a chunk of a text send fails, after the
    calls before it were accepted, the send throws that same error and the
    failed call is the last thing in the trace: no later chunk is
    attempted.  In a media send whose file post was accepted, a follow-up
    that fails does the same to the follow-ups after it, and the send
    throws the follow-up's error instead of returning the file post's
    result; the file post stays in the trace and nothing is sent to take
    it back.  A refused call fails with the error that carries the status
    and body of the response. *)
Theorem C5_failure_aborts_and_propagates (P : Platform) :
  (forall text opts tr u pre req post e,
     trim text <> [] ->
     webhook_endpoint P opts = inr u ->
     text_requests P u opts true (or_whole_text (chunk_text P text opts) text)
     = pre ++ req :: post ->
     all_accepted P (requests_of tr) pre ->
     call_fails P text_failure (requests_of tr ++ pre) req e ->
     sendDiscordWebhookText P text opts tr
     = (inl e, tr ++ map Fetch (pre ++ [req])))
  /\ (forall text mediaUrl opts tr u media j pre req post e,
        loadWebMedia P mediaUrl = inr media ->
        webhook_endpoint P opts = inr u ->
        let chunks := media_chunks P text opts in
        let freq := file_request P u opts (hd [] chunks) media in
        accepted P (requests_of tr) freq j ->
        followup_requests P u opts (tl chunks) = pre ++ req :: post ->
        all_accepted P (requests_of tr ++ [freq]) pre ->
        call_fails P text_failure (requests_of tr ++ freq :: pre) req e ->
        sendDiscordWebhookMedia P text mediaUrl opts tr
        = (inl e, tr ++ Fetch freq :: map Fetch (pre ++ [req])))
  /\ (forall failure history req resp,
        fetch P history req = inr resp -> ok resp = false ->
        call_fails P failure history req
          (Error (failure ++ lit " (" ++ show_number (status resp) ++ lit "): "
                  ++ match response_text resp with
                     | inr t => t
                     | inl _ => lit "unknown error"
                     end))).
Proof.
  split; [|split].
  - intros text opts tr u pre req post e Ht Hu Hreqs Hacc Hfail.
    rewrite (sendDiscordWebhookText_run P u text opts tr Ht Hu), Hreqs.
    now rewrite (post_all_fail_at P text_failure pre (requests_of tr) req post
                   None e Hacc Hfail).
  - intros text mediaUrl opts tr u media j pre req post e Hm Hu chunks freq
      Hfile Hreqs Hacc Hfail.
    rewrite (sendDiscordWebhookMedia_run P u media text mediaUrl opts tr Hm Hu).
    cbv zeta. fold chunks. fold freq.
    assert (Hr : res_bind (fetch P (requests_of tr) freq)
                   (read_response file_failure) = inr (result_of_json j))
      by (apply read_accepted; eauto).
    rewrite Hr, Hreqs.
    rewrite (post_all_fail_at P text_failure pre (requests_of tr ++ [freq]) req
               post None e Hacc); [reflexivity|].
    unfold call_fails in *. now rewrite <- app_assoc.
  - apply refused_call_fails.
Qed.

(** C5 (amended) on the network that refuses its second call: a text of
    4500 letters stops after its second chunk, and a media send with a
    caption of 4500 letters stops after its first follow-up. *)
Lemma C5_failure_aborts_and_propagates_witness :
  (let run := sendDiscordWebhookText flaky (Demo.letters 4500) Demo.plain_opts [] in
   fst run = inl (Error (lit "Discord webhook failed (500): boom"))
   /\ List.length (snd run) = 2%nat)
  /\ (let run := sendDiscordWebhookMedia flaky (Demo.letters 4500) cat_url
                   Demo.plain_opts [] in
      fst run = inl (Error (lit "Discord webhook failed (500): boom"))
      /\ List.length (snd run) = 2%nat).
Proof.
  destruct (C5_failure_aborts_and_propagates flaky) as (Htext & Hmedia & _).
  pose (u := (Demo.hook, [(lit "wait", lit "true")]) : URL flaky).
  split.
  - pose (reqs := text_requests flaky u Demo.plain_opts true
                    (or_whole_text (chunk_text flaky (Demo.letters 4500)
                                      Demo.plain_opts) (Demo.letters 4500))).
    rewrite (Htext (Demo.letters 4500) Demo.plain_opts [] u
               (firstn 1 reqs) (nth 1 reqs (JsonPost [] (json_body [] Demo.plain_opts)))
               (skipn 2 reqs)
               (Error (lit "Discord webhook failed (500): boom"))).
    + cbv zeta. split; [reflexivity|]. vm_compute. reflexivity.
    + vm_compute; discriminate.
    + reflexivity.
    + vm_compute. reflexivity.
    + intros pre req post Hpre.
      assert (pre = []) as ->.
      { destruct pre as [|p [|q pre]]; [reflexivity| |];
          apply (f_equal (@List.length _)) in Hpre; vm_compute in Hpre;
          rewrite ?length_app in Hpre; simpl in Hpre; lia. }
      eexists. eexists. split; [reflexivity|split; reflexivity].
    + vm_compute. reflexivity.
  - pose (chunks := media_chunks flaky (Demo.letters 4500) Demo.plain_opts).
    pose (media := {| buffer := [Byte.x89; Byte.x50; Byte.x4e; Byte.x47];
                      fileName := Some (lit "cat.png");
                      mimeType := Some (lit "image/png") |}).
    pose (reqs := followup_requests flaky u Demo.plain_opts (tl chunks)).
    rewrite (Hmedia (Demo.letters 4500) cat_url Demo.plain_opts [] u media
               {| id := lit "1"; channel_id := lit "555" |}
               [] (nth 0 reqs (JsonPost [] (json_body [] Demo.plain_opts)))
               (skipn 1 reqs)
               (Error (lit "Discord webhook failed (500): boom"))).
    + cbv zeta. split; [reflexivity|]. vm_compute. reflexivity.
    + reflexivity.
    + reflexivity.
    + eexists. split; [vm_compute; reflexivity|split; reflexivity].
    + vm_compute. reflexivity.
    + intros pre req post Hpre. destruct pre; discriminate Hpre.
    + vm_compute. reflexivity.
Defined.

(* ================================================================== *)
(** * Properties: captions *)
(* ================================================================== *)

Example media_blank_caption_is_sent :
  let run := sendDiscordWebhookMedia (Demo.platform None [] []) (lit "   ") cat_url
               Demo.plain_opts [] in
  contents (requests_of (snd run)) = [Some (lit "   ")]
  /\ fst run = inr {| messageId := lit "1"; channelId := lit "555" |}.
Proof. vm_compute. split; reflexivity. Qed.

(** C9.  The media path has no check of the caption.  With an empty
    caption, once the media is loaded and the endpoint is a URL, exactly
    one call goes out: the file post, whose JSON part has no [content]
    field, and no follow-up; the outcome of the send is the outcome of that
    call, a result whenever the call is accepted.  The text path throws its
    validation error on the same empty text without any call.  Whatever
    the caption, blank or not, the first call of a media send is the file
    post. *)
Theorem C9_media_accepts_empty_caption (P : Platform) (mediaUrl : str)
    (opts : WebhookSendOptions) (tr : Trace) (media : WebMedia) (u : URL P) :
  loadWebMedia P mediaUrl = inr media ->
  webhook_endpoint P opts = inr u ->
  let run := sendDiscordWebhookMedia P [] mediaUrl opts tr in
  let req := file_request P u opts [] media in
  snd run = tr ++ [Fetch req]
  /\ is_file_post req = true
  /\ content (request_payload req) = None
  /\ fst run = res_bind (fetch P (requests_of tr) req) (read_response file_failure)
  /\ (forall j, accepted P (requests_of tr) req j ->
        fst run = inr (result_of_json j))
  /\ sendDiscordWebhookText P [] opts tr = (inl blank_text_error, tr)
  /\ (forall text,
        exists caption rest,
          snd (sendDiscordWebhookMedia P text mediaUrl opts tr)
          = tr ++ Fetch (file_request P u opts caption media) :: map Fetch rest
          /\ Forall (fun r => is_file_post r = false) rest).
Proof.
  intros Hm Hu run req.
  assert (Hrun : run = (res_bind (fetch P (requests_of tr) req)
                          (read_response file_failure), tr ++ [Fetch req])).
  { subst run.
    rewrite (sendDiscordWebhookMedia_run P u media [] mediaUrl opts tr Hm Hu).
    cbv zeta. unfold media_chunks; simpl. fold req.
    destruct (res_bind _ _); reflexivity. }
  rewrite Hrun; simpl.
  split; [reflexivity|]. split; [reflexivity|]. split; [reflexivity|].
  split; [reflexivity|]. split; [|split].
  - intros j Hj. apply read_accepted; eauto.
  - apply sendDiscordWebhookText_blank. reflexivity.
  - intros text.
    rewrite (sendDiscordWebhookMedia_run P u media text mediaUrl opts tr Hm Hu).
    cbv zeta. exists (hd [] (media_chunks P text opts)).
    set (fr := file_request P u opts (hd [] (media_chunks P text opts)) media).
    destruct (res_bind (fetch P (requests_of tr) fr) (read_response file_failure))
      as [e|result].
    + exists []; split; [reflexivity|constructor].
    + destruct (post_all_prefix P text_failure
                  (followup_requests P u opts (tl (media_chunks P text opts)))
                  (requests_of tr ++ [fr]) None) as (k & _ & Hpre).
      destruct (post_all P text_failure (requests_of tr ++ [fr]) _ None)
        as [out sent]; simpl in Hpre |- *.
      exists sent; split; [reflexivity|]. subst sent.
      apply Forall_prefix.
      eapply Forall_impl;
        [|apply (followup_requests_embeds P u opts
                   (tl (media_chunks P text opts)))].
      now intros r [H _].
Qed.

(** C9 on the accepting network: the empty caption goes out as one file
    post without [content], and the send returns its result. *)
Lemma C9_media_accepts_empty_caption_witness :
  let run := sendDiscordWebhookMedia (Demo.platform None [] []) [] cat_url
               Demo.plain_opts [] in
  (exists req, snd run = [Fetch req] /\ is_file_post req = true
               /\ content (request_payload req) = None)
  /\ fst run = inr {| messageId := lit "1"; channelId := lit "555" |}.
Proof.
  cbv zeta.
  pose proof (C9_media_accepts_empty_caption (Demo.platform None [] []) cat_url
                Demo.plain_opts []
                {| buffer := [Byte.x89; Byte.x50; Byte.x4e; Byte.x47];
                   fileName := Some (lit "cat.png");
                   mimeType := Some (lit "image/png") |}
                (Demo.hook, [(lit "wait", lit "true")])
                eq_refl eq_refl)
    as (Htrace & Hfile & Hcontent & _ & Hres & _).
  split.
  - eexists. split; [exact Htrace|]. split; [exact Hfile|exact Hcontent].
  - apply (Hres {| id := lit "1"; channel_id := lit "555" |}).
    eexists. split; [reflexivity|]. split; reflexivity.
Defined.

(* ================================================================== *)
(** * Properties: the reply target and the transport *)
(* ================================================================== *)

Lemma text_loop_replyTo (P : Platform) (r : option str) (opts : WebhookSendOptions)
    (chunks : list str) :
  forall lastResult first tr,
    text_loop P chunks (with_replyTo opts r) lastResult first tr
    = text_loop P chunks opts lastResult first tr.
Proof.
  induction chunks as [|c chunks IH]; intros lastResult first tr; simpl;
    [reflexivity|].
  unfold bind.
  change (postWebhookMessage P c
            (with_embeds (with_replyTo opts r)
               (if first then embeds (with_replyTo opts r) else None)))
    with (postWebhookMessage P c
            (with_embeds opts (if first then embeds opts else None))).
  destruct (postWebhookMessage P c _ tr) as [[e|res] tr']; [reflexivity|].
  apply IH.
Qed.

Lemma followup_loop_replyTo (P : Platform) (r : option str)
    (opts : WebhookSendOptions) (chunks : list str) :
  forall tr,
    followup_loop P chunks (with_replyTo opts r) tr = followup_loop P chunks opts tr.
Proof.
  induction chunks as [|c chunks IH]; intros tr; simpl; [reflexivity|].
  destruct (negb (truthy (trim c))); [apply IH|].
  unfold bind.
  change (postWebhookMessage P c (with_replyTo opts r))
    with (postWebhookMessage P c opts).
  destruct (postWebhookMessage P c opts tr) as [[e|res] tr']; [reflexivity|].
  apply IH.
Qed.

Lemma sendDiscordWebhookText_replyTo (P : Platform) (text : str)
    (opts : WebhookSendOptions) (r : option str) (tr : Trace) :
  sendDiscordWebhookText P text (with_replyTo opts r) tr
  = sendDiscordWebhookText P text opts tr.
Proof.
  unfold sendDiscordWebhookText.
  destruct (negb (truthy (trim text))); [reflexivity|].
  cbv zeta. unfold bind.
  change (chunk_text P text (with_replyTo opts r)) with (chunk_text P text opts).
  now rewrite text_loop_replyTo.
Qed.

Lemma sendDiscordWebhookMedia_replyTo (P : Platform) (text mediaUrl : str)
    (opts : WebhookSendOptions) (r : option str) (tr : Trace) :
  sendDiscordWebhookMedia P text mediaUrl (with_replyTo opts r) tr
  = sendDiscordWebhookMedia P text mediaUrl opts tr.
Proof.
  unfold sendDiscordWebhookMedia, bind, await.
  destruct (loadWebMedia P mediaUrl) as [e|media]; [reflexivity|].
  cbv zeta.
  change (chunk_text P text (with_replyTo opts r)) with (chunk_text P text opts).
  set (chunks := or_whole_text _ text).
  change (postWebhookMessageWithFile P
            match chunks with c :: _ => c | [] => [] end media
            (with_embeds (with_replyTo opts r) (embeds (with_replyTo opts r))))
    with (postWebhookMessageWithFile P
            match chunks with c :: _ => c | [] => [] end media
            (with_embeds opts (embeds opts))).
  destruct (postWebhookMessageWithFile P _ media _ tr) as [[e|res] tr'];
    [reflexivity|].
  now rewrite followup_loop_replyTo.
Qed.

(* ================================================================== *)
(** * Properties: delivery path selection *)
(* ================================================================== *)

Lemma truthy_true (s : str) : truthy s = true <-> s <> [].
Proof. destruct s; simpl; split; congruence. Qed.

Lemma resolveWebhookUrl_loop_truthy (gs : list GuildConfig) (cid url : str) :
  resolveWebhookUrl_loop gs cid = Some url -> truthy url = true.
Proof.
  induction gs as [|g gs IH]; simpl; [discriminate|].
  destruct (channels g) as [chans|]; [|exact IH].
  destruct (dict_get chans cid) as [cc|]; [|exact IH].
  destruct (truthyOpt (webhook cc)) eqn:Ht; [|exact IH].
  intros H; rewrite H in Ht; exact Ht.
Qed.

Lemma resolveWebhookUrl_truthy (c : OpenClawConfig) (cid url : str) :
  resolveWebhookUrl c cid = Some url -> truthy url = true.
Proof.
  unfold resolveWebhookUrl. destruct (cfg_guilds c); [|discriminate].
  apply resolveWebhookUrl_loop_truthy.
Qed.

Lemma webhookUrl_for_some (c : OpenClawConfig) (channelId : option str) (url : str) :
  webhookUrl_for c channelId = Some url
  <-> exists cid, channelId = Some cid /\ cid <> []
                  /\ resolveWebhookUrl c cid = Some url.
Proof.
  unfold webhookUrl_for. split.
  - destruct channelId as [cid|]; [|discriminate].
    destruct cid as [|ch cid]; simpl; [discriminate|].
    intros H. exists (ch :: cid). repeat split; [discriminate|exact H].
  - intros (cid & -> & Hne & H). destruct cid; [congruence|exact H].
Qed.

Lemma text_route_spec (P : Platform) (ctx : ChannelOutboundContext)
    (url : str) (i : WebhookIdentity) :
  text_route P ctx = Some (url, i) <-> webhook_branch_text P ctx url i.
Proof.
  unfold text_route, webhook_branch_text. split.
  - destruct (webhookUrl_for _ _) as [url'|] eqn:Hw; [|discriminate].
    destruct (agentId ctx) as [agent|]; [|discriminate].
    destruct (truthy url' && truthy agent) eqn:Ht; [|discriminate].
    apply andb_prop in Ht as [_ Ha].
    destruct (resolveWebhookIdentity _ agent None) as [e|[i'|]] eqn:Hr;
      try discriminate.
    intros [= -> ->].
    apply webhookUrl_for_some in Hw as (cid & Hc & Hne & Hu).
    exists cid, agent. repeat split; auto. now apply truthy_true.
  - intros (cid & agent & Hc & Hne & Hu & Ha & Hane & Hr).
    assert (Hw : webhookUrl_for (cfg ctx) (extractChannelId (to ctx)) = Some url)
      by (apply webhookUrl_for_some; eauto).
    rewrite Hw, Ha, Hr.
    rewrite (resolveWebhookUrl_truthy _ _ _ Hu).
    apply truthy_true in Hane. now rewrite Hane.
Qed.

Lemma media_route_spec (P : Platform) (ctx : ChannelOutboundContext)
    (url : str) (i : WebhookIdentity) (m : str) :
  media_route P ctx = Some (url, i, m) <-> webhook_branch_media P ctx url i m.
Proof.
  unfold webhook_branch_media. rewrite <- text_route_spec.
  unfold media_route, text_route. split.
  - destruct (webhookUrl_for _ _) as [url'|]; [|discriminate].
    destruct (agentId ctx) as [agent|]; [|discriminate].
    destruct (mediaUrl ctx) as [m'|]; [|discriminate].
    destruct (truthy url' && truthy agent) eqn:Ht; simpl; [|discriminate].
    destruct (truthy m') eqn:Hm; [|discriminate].
    destruct (resolveWebhookIdentity _ agent None) as [e|[i'|]];
      try discriminate.
    intros [= -> -> ->]. repeat split. now apply truthy_true.
  - destruct (webhookUrl_for _ _) as [url'|]; [|intros [H _]; discriminate H].
    destruct (agentId ctx) as [agent|]; [|intros [H _]; discriminate H].
    intros (Ht & -> & Hm). apply truthy_true in Hm. rewrite Hm.
    destruct (truthy url' && truthy agent); [|discriminate Ht]. simpl.
    destruct (resolveWebhookIdentity _ agent None) as [e|[i'|]];
      try discriminate Ht.
    now injection Ht as -> ->.
Qed.

Lemma branch_text_resolves P ctx url i :
  webhook_branch_text P ctx url i -> endpoint_resolves ctx /\ agent_resolves P ctx.
Proof.
  intros (cid & agent & Hc & _ & Hu & Ha & _ & Hr). split.
  - now exists cid, url.
  - now exists agent, i.
Qed.

Lemma text_webhook_run (P : Platform) (ctx : ChannelOutboundContext)
    (url : str) (i : WebhookIdentity) (tr : Trace) :
  text_route P ctx = Some (url, i) ->
  sendTextWithWebhookFallback P ctx tr
  = let (out, tr') :=
      sendDiscordWebhookText P (text ctx) (webhook_opts url i)
        (tr ++ [debug_line ctx;
                ConsoleLog (LogIdentityResolved (Some i));
                ConsoleLog (LogSendingVia (username i));
                CallWebhookText (text ctx) (webhook_opts url i)]) in
    (match out with inl e => inl e | inr r => inr (tag_discord r) end, tr').
Proof.
  unfold text_route, sendTextWithWebhookFallback, debug_line.
  destruct (webhookUrl_for _ _) as [url'|]; [|discriminate].
  destruct (agentId ctx) as [agent|]; [|discriminate].
  destruct (truthy url' && truthy agent); [|discriminate].
  destruct (resolveWebhookIdentity _ agent None) as [e|[i'|]] eqn:Hr;
    try discriminate.
  intros [= -> ->].
  unfold bind, console_log, call_webhook_text, emit, await, bind, ret.
  rewrite <- !app_assoc. simpl.
  destruct (sendDiscordWebhookText P _ _ _) as [[e|r] tr']; reflexivity.
Qed.

Lemma fallback_logs_are_logs (ctx : ChannelOutboundContext) :
  forallb is_log (fallback_logs ctx) = true.
Proof.
  unfold fallback_logs, debug_line.
  destruct (webhookUrl_for _ _) as [url|]; [|reflexivity].
  destruct (agentId ctx) as [agent|]; [|reflexivity].
  destruct (truthy url && truthy agent); reflexivity.
Qed.

Lemma text_fallback_run (P : Platform) (ctx : ChannelOutboundContext) (tr : Trace) :
  text_route P ctx = None ->
  sendTextWithWebhookFallback P ctx tr
  = (bot_receipt P ctx None,
     tr ++ fallback_logs ctx
        ++ [CallBotApi (to ctx) (text ctx) (bot_options ctx None)]).
Proof.
  assert (Hfb : forall tr0,
             text_fallback P ctx tr0
             = (bot_receipt P ctx None,
                tr0 ++ [ConsoleLog LogFallingBack;
                        CallBotApi (to ctx) (text ctx) (bot_options ctx None)])).
  { intros tr0.
    unfold text_fallback, bind, console_log, call_bot, emit, await, bind, ret,
      bot_receipt, res_bind, bot_options.
    rewrite <- !app_assoc. simpl.
    destruct (pick_sender P (deps ctx) _ _ _); reflexivity. }
  unfold text_route, sendTextWithWebhookFallback, fallback_logs, debug_line.
  unfold bind at 1. unfold console_log at 1. unfold emit at 1.
  destruct (webhookUrl_for _ _) as [url'|].
  2:{ intros _. rewrite Hfb, <- app_assoc. reflexivity. }
  destruct (agentId ctx) as [agent|].
  2:{ intros _. rewrite Hfb, <- app_assoc. reflexivity. }
  destruct (truthy url' && truthy agent).
  2:{ intros _. rewrite Hfb, <- app_assoc. reflexivity. }
  destruct (resolveWebhookIdentity_default_total (identityEnv P) agent) as [r Hr].
  rewrite Hr. destruct r as [i|]; [discriminate|]. intros _.
  unfold bind, await, console_log, emit. rewrite Hfb, <- !app_assoc.
  reflexivity.
Qed.

Lemma media_webhook_run (P : Platform) (ctx : ChannelOutboundContext)
    (url : str) (i : WebhookIdentity) (m : str) (tr : Trace) :
  media_route P ctx = Some (url, i, m) ->
  sendMediaWithWebhookFallback P ctx tr
  = let (out, tr') :=
      sendDiscordWebhookMedia P (text ctx) m (webhook_opts url i)
        (tr ++ [CallWebhookMedia (text ctx) m (webhook_opts url i)]) in
    (match out with inl e => inl e | inr r => inr (tag_discord r) end, tr').
Proof.
  unfold media_route, sendMediaWithWebhookFallback.
  destruct (webhookUrl_for _ _) as [url'|]; [|discriminate].
  destruct (agentId ctx) as [agent|]; [|discriminate].
  destruct (mediaUrl ctx) as [m'|]; [|discriminate].
  destruct (truthy url' && truthy agent && truthy m'); [|discriminate].
  destruct (resolveWebhookIdentity _ agent None) as [e|[i'|]] eqn:Hr;
    try discriminate.
  intros [= -> -> ->].
  unfold bind, call_webhook_media, emit, await, bind, ret.
  destruct (sendDiscordWebhookMedia P _ _ _ _) as [[e|r] tr']; reflexivity.
Qed.

Lemma media_fallback_run (P : Platform) (ctx : ChannelOutboundContext) (tr : Trace) :
  media_route P ctx = None ->
  sendMediaWithWebhookFallback P ctx tr
  = (bot_receipt P ctx (mediaUrl ctx),
     tr ++ [CallBotApi (to ctx) (text ctx) (bot_options ctx (mediaUrl ctx))]).
Proof.
  assert (Hfb : media_fallback P ctx tr
                = (bot_receipt P ctx (mediaUrl ctx),
                   tr ++ [CallBotApi (to ctx) (text ctx)
                            (bot_options ctx (mediaUrl ctx))])).
  { unfold media_fallback, bind, call_bot, emit, await, bind, ret,
      bot_receipt, res_bind, bot_options.
    destruct (pick_sender P (deps ctx) _ _ _); reflexivity. }
  unfold media_route, sendMediaWithWebhookFallback.
  destruct (webhookUrl_for _ _) as [url'|]; [|intros _; exact Hfb].
  destruct (agentId ctx) as [agent|]; [|intros _; exact Hfb].
  destruct (mediaUrl ctx) as [m'|] eqn:Hmu; [|intros _; exact Hfb].
  destruct (truthy url' && truthy agent && truthy m'); [|intros _; exact Hfb].
  destruct (resolveWebhookIdentity_default_total (identityEnv P) agent) as [r Hr].
  rewrite Hr. destruct r as [i|]; [discriminate|]. intros _.
  unfold bind, await. exact Hfb.
Qed.

Lemma logs_no_webhook_call (logs : list Event) (ev : Event) :
  forallb is_log logs = true -> In ev logs -> is_webhook_call ev = false.
Proof.
  intros Hl Hin. rewrite forallb_forall in Hl. specialize (Hl ev Hin).
  destruct ev; simpl in *; congruence.
Qed.

Lemma logs_no_requests (logs : list Event) :
  forallb is_log logs = true -> requests_of logs = [].
Proof.
  induction logs as [|ev logs IH]; simpl; [reflexivity|].
  destruct ev; simpl; try discriminate. exact IH.
Qed.

Lemma fallback_trace_facts (logs : list Event) (call : Event) :
  forallb is_log logs = true -> is_bot_call call = true ->
  ~ webhook_invoked (logs ++ [call])
  /\ requests_of (logs ++ [call]) = []
  /\ In call (logs ++ [call]).
Proof.
  intros Hl Hc. split; [|split].
  - intros (ev & Hin & Hw). apply in_app_or in Hin as [Hin|[<-|[]]].
    + rewrite (logs_no_webhook_call logs ev Hl Hin) in Hw. discriminate.
    + destruct call; simpl in *; congruence.
  - rewrite requests_of_app, (logs_no_requests logs Hl).
    destruct call; simpl in *; congruence.
  - apply in_or_app; right; now left.
Qed.

Example ember_goes_through_webhook :
  let run := sendTextWithWebhookFallback
               (Demo.platform (Some (lit "/home/u")) Demo.ember_files [])
               Demo.ember_ctx [] in
  map is_webhook_call (snd run) = [false; false; false; true; false]
  /\ option_map payload_username
       (option_map request_payload (hd_error (requests_of (snd run))))
     = Some (Some (Demo.fire ++ lit " Ember")).
Proof. vm_compute. split; reflexivity. Qed.

Example unknown_agent_falls_back :
  let run := sendTextWithWebhookFallback (Demo.platform (Some (lit "/home/u")) [] [])
               Demo.ember_ctx [] in
  map is_bot_call (snd run) = [false; false; false; true]
  /\ fst run = inr {| channel := lit "discord"; receipt_messageId := lit "9001";
                      receipt_channelId := lit "channel:123456789012345678" |}.
Proof. vm_compute. split; reflexivity. Qed.

(** C3.  A text send calls into the webhook transport only if a webhook
    endpoint resolves for the destination and an agent identifier is
    present and resolves to an identity; a media send, only if moreover a
    media reference is present.  When one of these fails, the adapter
    never calls the webhook transport and makes no webhook network call:
    it calls the bot-API sender, once, with the destination, the text, the
    reply target and the account (and the media reference), and its
    outcome is the sender's. *)
Theorem C3_webhook_only_when_resolved (P : Platform)
    (ctx : ChannelOutboundContext) (tr : Trace) :
  (exists new,
     snd (sendTextWithWebhookFallback P ctx tr) = tr ++ new
     /\ (webhook_invoked new -> endpoint_resolves ctx /\ agent_resolves P ctx)
     /\ (~ (endpoint_resolves ctx /\ agent_resolves P ctx) ->
         ~ webhook_invoked new
         /\ requests_of new = []
         /\ In (CallBotApi (to ctx) (text ctx) (bot_options ctx None)) new
         /\ fst (sendTextWithWebhookFallback P ctx tr) = bot_receipt P ctx None))
  /\ (exists new,
        snd (sendMediaWithWebhookFallback P ctx tr) = tr ++ new
        /\ (webhook_invoked new ->
            endpoint_resolves ctx /\ agent_resolves P ctx /\ media_present ctx)
        /\ (~ (endpoint_resolves ctx /\ agent_resolves P ctx /\ media_present ctx) ->
            ~ webhook_invoked new
            /\ requests_of new = []
            /\ In (CallBotApi (to ctx) (text ctx) (bot_options ctx (mediaUrl ctx)))
                 new
            /\ fst (sendMediaWithWebhookFallback P ctx tr)
               = bot_receipt P ctx (mediaUrl ctx))).
Proof.
  split.
  - destruct (text_route P ctx) as [[url i]|] eqn:Hroute.
    + pose proof (proj1 (text_route_spec P ctx url i) Hroute) as Hbranch.
      apply branch_text_resolves in Hbranch.
      rewrite (text_webhook_run P ctx url i tr Hroute).
      match goal with
      | |- context [sendDiscordWebhookText P ?t ?o ?tr1] =>
          destruct (text_send_embeds P t o tr1) as (sent & Hsent & _);
          destruct (sendDiscordWebhookText P t o tr1) as [out tr']
      end.
      simpl in Hsent; subst tr'. rewrite <- app_assoc. simpl.
      eexists. split; [reflexivity|]. split; [auto|].
      intros Hno. now destruct (Hno Hbranch).
    + rewrite (text_fallback_run P ctx tr Hroute). simpl.
      exists (fallback_logs ctx
              ++ [CallBotApi (to ctx) (text ctx) (bot_options ctx None)]).
      destruct (fallback_trace_facts (fallback_logs ctx)
                  (CallBotApi (to ctx) (text ctx) (bot_options ctx None))
                  (fallback_logs_are_logs ctx) eq_refl) as (Hnw & Hnr & Hin).
      split; [reflexivity|]. split; [intros H; now destruct (Hnw H)|].
      intros _. auto.
  - destruct (media_route P ctx) as [[[url i] m]|] eqn:Hroute.
    + pose proof (proj1 (media_route_spec P ctx url i m) Hroute)
        as (Hbranch & Hm & _).
      apply branch_text_resolves in Hbranch as [He Ha].
      assert (Hmp : media_present ctx) by (now exists m).
      rewrite (media_webhook_run P ctx url i m tr Hroute).
      match goal with
      | |- context [sendDiscordWebhookMedia P ?t ?mu ?o ?tr1] =>
          destruct (media_send_embeds P t mu o tr1) as (sent & Hsent & _);
          destruct (sendDiscordWebhookMedia P t mu o tr1) as [out tr']
      end.
      simpl in Hsent; subst tr'. rewrite <- app_assoc. simpl.
      eexists. split; [reflexivity|]. split; [auto|].
      intros Hno. now destruct (Hno (conj He (conj Ha Hmp))).
    + rewrite (media_fallback_run P ctx tr Hroute). simpl.
      exists [CallBotApi (to ctx) (text ctx) (bot_options ctx (mediaUrl ctx))].
      destruct (fallback_trace_facts []
                  (CallBotApi (to ctx) (text ctx) (bot_options ctx (mediaUrl ctx)))
                  eq_refl eq_refl) as (Hnw & Hnr & Hin).
      split; [reflexivity|]. split; [intros H; now destruct (Hnw H)|].
      intros _. auto.
Qed.

(** C3 at a context whose endpoint resolves and that names no agent: the
    bot API is called and the webhook transport is not. *)
Lemma C3_webhook_only_when_resolved_witness :
  let P := Demo.platform (Some (lit "/home/u")) Demo.ember_files [] in
  let ctx :=
    {| to := lit "channel:123456789012345678"; text := lit "hello";
       mediaUrl := None; cfg := Demo.ember_cfg; accountId := None; deps := None;
       replyToId := Some (lit "42"); agentId := None |} in
  endpoint_resolves ctx
  /\ exists new,
       snd (sendTextWithWebhookFallback P ctx []) = [] ++ new
       /\ ~ webhook_invoked new
       /\ requests_of new = []
       /\ In (CallBotApi (to ctx) (text ctx) (bot_options ctx None)) new.
Proof.
  cbv zeta. split.
  - exists (lit "123456789012345678"), Demo.hook. split; reflexivity.
  - destruct (C3_webhook_only_when_resolved
                (Demo.platform (Some (lit "/home/u")) Demo.ember_files [])
                {| to := lit "channel:123456789012345678"; text := lit "hello";
                   mediaUrl := None; cfg := Demo.ember_cfg; accountId := None;
                   deps := None; replyToId := Some (lit "42"); agentId := None |}
                []) as [(new & Htr & _ & Hfb) _].
    exists new. split; [exact Htr|].
    destruct Hfb as (Hnw & Hnr & Hin & _).
    + intros [_ (agent & i & Ha & _)]. discriminate Ha.
    + auto.
Defined.

(** The exact test of the text path: the webhook transport is called if
    and only if channel id, endpoint and agent identifier are non-empty
    strings and the identity resolves. *)
Lemma text_webhook_invoked_exactly (P : Platform) (ctx : ChannelOutboundContext)
    (tr : Trace) :
  exists new,
    snd (sendTextWithWebhookFallback P ctx tr) = tr ++ new
    /\ (webhook_invoked new <-> exists url i, webhook_branch_text P ctx url i).
Proof.
  destruct (text_route P ctx) as [[url i]|] eqn:Hroute.
  - pose proof (proj1 (text_route_spec P ctx url i) Hroute) as Hbranch.
    rewrite (text_webhook_run P ctx url i tr Hroute).
    match goal with
    | |- context [sendDiscordWebhookText P ?t ?o ?tr1] =>
        destruct (text_send_embeds P t o tr1) as (sent & Hsent & _);
        destruct (sendDiscordWebhookText P t o tr1) as [out tr']
    end.
    simpl in Hsent; subst tr'. rewrite <- app_assoc. simpl.
    eexists. split; [reflexivity|]. split; [eauto|].
    intros _. exists (CallWebhookText (text ctx) (webhook_opts url i)).
    split; [|reflexivity]. simpl; auto.
  - rewrite (text_fallback_run P ctx tr Hroute). simpl.
    eexists. split; [reflexivity|].
    destruct (fallback_trace_facts (fallback_logs ctx)
                (CallBotApi (to ctx) (text ctx) (bot_options ctx None))
                (fallback_logs_are_logs ctx) eq_refl) as (Hnw & _).
    split; [intros H; now destruct (Hnw H)|].
    intros (url & i & Hb). apply text_route_spec in Hb. congruence.
Qed.

Example empty_agent_id_falls_back :
  let P := Demo.platform (Some (lit "/home/u")) Demo.ember_files [] in
  let ctx :=
    {| to := lit "channel:123456789012345678"; text := lit "hello";
       mediaUrl := None; cfg := Demo.ember_cfg; accountId := None; deps := None;
       replyToId := None; agentId := Some [] |} in
  map is_bot_call (snd (sendTextWithWebhookFallback P ctx []))
  = [false; false; true].
Proof. vm_compute. reflexivity. Qed.

(* ================================================================== *)
(** * Properties: the reply target *)
(* ================================================================== *)

(** C10.  The reply target never reaches a webhook delivery.  Two calls of
    the webhook transport, text or media, whose options differ in
    [replyTo] alone have the same outcome and leave the same trace; two
    contexts that go through the webhook and differ in the reply target
    alone have the same outcome and leave the same trace; and when a
    context falls back, the bot-API sender is called with the context's
    reply target. *)
Theorem C10_reply_target_only_on_fallback (P : Platform) :
  (forall text opts r tr,
     sendDiscordWebhookText P text (with_replyTo opts r) tr
     = sendDiscordWebhookText P text opts tr)
  /\ (forall text mediaUrl opts r tr,
        sendDiscordWebhookMedia P text mediaUrl (with_replyTo opts r) tr
        = sendDiscordWebhookMedia P text mediaUrl opts tr)
  /\ (forall ctx url i r tr,
        webhook_branch_text P ctx url i ->
        sendTextWithWebhookFallback P (with_replyToId ctx r) tr
        = sendTextWithWebhookFallback P ctx tr)
  /\ (forall ctx url i m r tr,
        webhook_branch_media P ctx url i m ->
        sendMediaWithWebhookFallback P (with_replyToId ctx r) tr
        = sendMediaWithWebhookFallback P ctx tr)
  /\ (forall ctx tr,
        (forall url i, ~ webhook_branch_text P ctx url i) ->
        exists logs,
          forallb is_log logs = true
          /\ snd (sendTextWithWebhookFallback P ctx tr)
             = tr ++ logs
                  ++ [CallBotApi (to ctx) (text ctx)
                        {| verbose := false; bot_mediaUrl := None;
                           bot_replyTo := replyToId ctx;
                           bot_accountId := accountId ctx |}])
  /\ (forall ctx tr,
        (forall url i m, ~ webhook_branch_media P ctx url i m) ->
        snd (sendMediaWithWebhookFallback P ctx tr)
        = tr ++ [CallBotApi (to ctx) (text ctx)
                   {| verbose := false; bot_mediaUrl := mediaUrl ctx;
                      bot_replyTo := replyToId ctx;
                      bot_accountId := accountId ctx |}]).
Proof.
  split; [intros; apply sendDiscordWebhookText_replyTo|].
  split; [intros; apply sendDiscordWebhookMedia_replyTo|].
  split; [|split; [|split]].
  - intros ctx url i r tr Hb. apply text_route_spec in Hb.
    rewrite (text_webhook_run P ctx url i tr Hb).
    rewrite (text_webhook_run P (with_replyToId ctx r) url i tr Hb).
    reflexivity.
  - intros ctx url i m r tr Hb. apply media_route_spec in Hb.
    rewrite (media_webhook_run P ctx url i m tr Hb).
    rewrite (media_webhook_run P (with_replyToId ctx r) url i m tr Hb).
    reflexivity.
  - intros ctx tr Hno. exists (fallback_logs ctx).
    split; [apply fallback_logs_are_logs|].
    rewrite text_fallback_run; [reflexivity|].
    destruct (text_route P ctx) as [[url i]|] eqn:Hr; [|reflexivity].
    now destruct (Hno url i (proj1 (text_route_spec P ctx url i) Hr)).
  - intros ctx tr Hno.
    rewrite media_fallback_run; [reflexivity|].
    destruct (media_route P ctx) as [[[url i] m]|] eqn:Hr; [|reflexivity].
    now destruct (Hno url i m (proj1 (media_route_spec P ctx url i m) Hr)).
Qed.

(** C10 at the Ember context: with the reply target [42] or without one,
    the send goes through the webhook and does the same. *)
Lemma C10_reply_target_only_on_fallback_witness :
  let P := Demo.platform (Some (lit "/home/u")) Demo.ember_files [] in
  sendTextWithWebhookFallback P (with_replyToId Demo.ember_ctx None) []
  = sendTextWithWebhookFallback P Demo.ember_ctx [].
Proof.
  cbv zeta.
  apply (proj1 (proj2 (proj2 (C10_reply_target_only_on_fallback
                                (Demo.platform (Some (lit "/home/u"))
                                   Demo.ember_files []))))
           Demo.ember_ctx Demo.hook
           {| username := Some (Demo.fire ++ lit " Ember"); avatarUrl := None |}).
  exists (lit "123456789012345678"), (lit "ember").
  repeat split; try reflexivity; discriminate.
Defined.

(* ================================================================== *)
(** * Further properties: trimming *)
(* ================================================================== *)

Lemma dropWhile_blank_app (p : char16 -> bool) (ws s : str) :
  forallb p ws = true -> dropWhile p (ws ++ s) = dropWhile p s.
Proof.
  induction ws as [|c ws IH]; simpl; [reflexivity|].
  intros H. apply andb_prop in H as [Hc Hws]. now rewrite Hc, IH.
Qed.

Lemma dropWhile_head (p : char16 -> bool) (c : char16) (s : str) :
  p c = false -> dropWhile p (c :: s) = c :: s.
Proof. intros H; simpl; now rewrite H. Qed.

Lemma dropWhile_split (p : char16 -> bool) (s : str) :
  exists b, s = b ++ dropWhile p s /\ forallb p b = true
            /\ match dropWhile p s with
               | [] => True
               | c :: _ => p c = false
               end.
Proof.
  induction s as [|c s (b & Hs & Hb & Hd)]; simpl.
  - exists []; auto.
  - destruct (p c) eqn:Hc.
    + exists (c :: b); simpl. rewrite Hc, Hb, <- Hs. auto.
    + exists []; simpl. rewrite Hc. auto.
Qed.

Lemma forallb_rev (p : char16 -> bool) (s : str) :
  forallb p (rev s) = forallb p s.
Proof.
  induction s as [|c s IH]; simpl; [reflexivity|].
  rewrite forallb_app, IH; simpl. rewrite andb_true_r. apply andb_comm.
Qed.

Lemma rev_tight (s : str) (a : char16) (m : str) :
  s = a :: m -> rev s = last s a :: rev (removelast s).
Proof.
  intros Hs. assert (Hne : s <> []) by (rewrite Hs; discriminate).
  rewrite (app_removelast_last a Hne) at 1.
  now rewrite rev_app_distr.
Qed.

(** Whitespace around a tight core is all that [trim] removes. *)
Lemma trim_sandwich (b core e : str) :
  blank b -> blank e -> tight core -> trim (b ++ core ++ e) = core.
Proof.
  unfold blank, tight, trim, trimStart, trimEnd.
  intros Hb He (a & m & Hcore & Ha & Hz).
  rewrite (dropWhile_blank_app _ b _ Hb).
  rewrite Hcore at 1. simpl app. rewrite (dropWhile_head _ a _ Ha).
  change (a :: m ++ e) with ((a :: m) ++ e). rewrite <- Hcore.
  rewrite rev_app_distr, dropWhile_blank_app by (now rewrite forallb_rev).
  rewrite (rev_tight core a m Hcore), (dropWhile_head _ _ _ Hz).
  rewrite <- (rev_tight core a m Hcore). apply rev_involutive.
Qed.

Lemma blank_trim (s : str) : blank s -> trim s = [].
Proof.
  unfold blank, trim, trimStart, trimEnd. intros H.
  rewrite <- (app_nil_r s), (dropWhile_blank_app _ s [] H). reflexivity.
Qed.

(** Every string is blank, or whitespace around a tight core. *)
Lemma trim_decompose (s : str) :
  (blank s /\ trim s = [])
  \/ (exists b core e, s = b ++ core ++ e /\ blank b /\ blank e /\ tight core
                       /\ trim s = core).
Proof.
  destruct (dropWhile_split isWhiteSpace s) as (b & Hs & Hb & Hd).
  destruct (dropWhile isWhiteSpace s) as [|a m] eqn:Hy.
  - left. rewrite app_nil_r in Hs. subst b. split; [exact Hb|].
    now apply blank_trim.
  - right.
    destruct (dropWhile_split isWhiteSpace (rev (a :: m))) as (e' & Hr & He' & Hw).
    destruct (dropWhile isWhiteSpace (rev (a :: m))) as [|z w] eqn:Hdw.
    + exfalso. rewrite app_nil_r in Hr. rewrite <- Hr in He'.
      rewrite forallb_rev in He'. simpl in He'. now rewrite Hd in He'.
    + assert (Hcore : a :: m = rev (z :: w) ++ rev e').
      { rewrite <- rev_app_distr, <- Hr. symmetry; apply rev_involutive. }
      assert (Hhead : exists m', rev (z :: w) = a :: m').
      { destruct (rev (z :: w)) as [|a' m'] eqn:Hrev.
        - apply (f_equal (@rev _)) in Hrev. rewrite rev_involutive in Hrev.
          discriminate Hrev.
        - simpl in Hcore. injection Hcore as <- _. now exists m'. }
      destruct Hhead as [m' Hm'].
      assert (Htight : tight (rev (z :: w))).
      { exists a, m'. split; [exact Hm'|]. split; [exact Hd|].
        simpl rev. rewrite last_last. exact Hw. }
      exists b, (rev (z :: w)), (rev e').
      assert (Hblank_e : blank (rev e')) by (unfold blank; now rewrite forallb_rev).
      assert (Hs' : s = b ++ rev (z :: w) ++ rev e') by (now rewrite <- Hcore).
      repeat split; auto.
      rewrite Hs' at 1. now apply trim_sandwich.
Qed.

Lemma tight_trim (s : str) : tight s -> trim s = s.
Proof.
  intros H. rewrite <- (app_nil_r s) at 1.
  apply (trim_sandwich [] s []); auto; reflexivity.
Qed.

Lemma trim_tight_or_empty (s : str) : trim s = [] \/ tight (trim s).
Proof.
  destruct (trim_decompose s) as [[_ ->]|(b & core & e & _ & _ & _ & Ht & ->)];
    auto.
Qed.

(** [trim] is idempotent. *)
Lemma trim_idempotent (s : str) : trim (trim s) = trim s.
Proof.
  destruct (trim_tight_or_empty s) as [->|Ht]; [reflexivity|].
  now apply tight_trim.
Qed.

Lemma blank_app (a b : str) : blank a -> blank b -> blank (a ++ b).
Proof. unfold blank; intros Ha Hb. now rewrite forallb_app, Ha, Hb. Qed.

(** [trim] does not see whitespace added around its argument. *)
Lemma trim_padding (ws1 s ws2 : str) :
  blank ws1 -> blank ws2 -> trim (ws1 ++ s ++ ws2) = trim s.
Proof.
  intros H1 H2.
  destruct (trim_decompose s) as [[Hs ->]|(b & core & e & -> & Hb & He & Ht & ->)].
  - apply blank_trim. auto using blank_app.
  - replace (ws1 ++ (b ++ core ++ e) ++ ws2)
      with ((ws1 ++ b) ++ core ++ (e ++ ws2))
      by (now rewrite <- !app_assoc).
    apply trim_sandwich; auto using blank_app.
Qed.

Lemma last_app_nonempty {A} (l1 l2 : list A) (d d' : A) :
  l2 <> [] -> last (l1 ++ l2) d = last l2 d'.
Proof.
  intros Hne. induction l1 as [|x l1 IH]; simpl.
  - destruct l2 as [|y l2]; [congruence|].
    clear Hne. revert y. induction l2 as [|z l2 IH2]; intros y; [reflexivity|].
    change (last (z :: l2) d = last (z :: l2) d'). apply IH2.
  - rewrite IH. destruct (l1 ++ l2) eqn:Happ; [|reflexivity].
    apply app_eq_nil in Happ as [_ ->]. congruence.
Qed.

Lemma tight_extend (c : char16) (x mid core : str) :
  isWhiteSpace c = false -> tight core -> tight ((c :: x) ++ mid ++ core).
Proof.
  intros Hc (a & m & Hcore & Ha & Hz).
  exists c, (x ++ mid ++ core). split; [reflexivity|]. split; [exact Hc|].
  rewrite app_assoc.
  rewrite (last_app_nonempty _ core c a) by (rewrite Hcore; discriminate).
  exact Hz.
Qed.

Lemma digit_not_whitespace (c : char16) : isDigit c = true -> isWhiteSpace c = false.
Proof.
  intros H. apply isDigit_spec in H. unfold isWhiteSpace.
  repeat match goal with
         | |- context [?a =? ?b] =>
             rewrite (proj2 (N.eqb_neq a b)) by lia
         end.
  rewrite (proj2 (N.leb_gt 0x2000 c)) by lia. reflexivity.
Qed.

Lemma snowflake_tight (s : str) : snowflake s -> tight s.
Proof.
  intros [Hd Hlen]. destruct s as [|a m]; [simpl in Hlen; lia|].
  exists a, m. split; [reflexivity|].
  rewrite Forall_forall in Hd.
  split; apply digit_not_whitespace, isDigit_spec, Hd.
  - now left.
  - destruct (exists_last (l := a :: m) ltac:(discriminate)) as (l' & z & Hl).
    rewrite Hl, last_last. apply in_or_app; right; now left.
Qed.

Lemma snowflake_no_prefix (s : str) : snowflake s -> ~ has_channel_prefix s.
Proof.
  intros [Hd _] [rest ->]. inversion Hd as [|c l Hc _]. simpl in Hc. lia.
Qed.

(* ================================================================== *)
(** * Further properties: address resolver *)
(* ================================================================== *)

(** X1.  Whitespace around an address changes nothing: the address with
    any whitespace before and after it resolves as the address itself. *)
Theorem extractChannelId_ignores_padding (to ws1 ws2 : str) :
  blank ws1 -> blank ws2 ->
  extractChannelId (ws1 ++ to ++ ws2) = extractChannelId to.
Proof.
  intros H1 H2. unfold extractChannelId. now rewrite trim_padding.
Qed.

(** X1 with a tab and a no-break space in front and a line feed behind. *)
Lemma extractChannelId_ignores_padding_witness :
  extractChannelId ([0x09; 0xA0] ++ lit "channel:42" ++ [0x0A]) = Some (lit "42").
Proof.
  refine (eq_trans
            (extractChannelId_ignores_padding (lit "channel:42") [0x09; 0xA0]
               [0x0A] eq_refl eq_refl) _).
  reflexivity.
Defined.

(** X2.  The two address formats agree.  A prefixed address resolves to
    what follows the prefix, trimmed, whatever that is; a snowflake
    resolves to itself, bare or after the prefix. *)
Theorem extractChannelId_formats_agree :
  (forall id, extractChannelId (lit "channel:" ++ id) = Some (trim id))
  /\ (forall s, snowflake s ->
        extractChannelId s = Some s
        /\ extractChannelId (lit "channel:" ++ s) = extractChannelId s).
Proof.
  assert (Hpre : forall id, extractChannelId (lit "channel:" ++ id) = Some (trim id)).
  { intros id.
    assert (Htrim : exists rest, trim (lit "channel:" ++ id) = lit "channel:" ++ rest
                                 /\ trim rest = trim id).
    { destruct (trim_decompose id)
        as [[Hb Hid]|(b & core & e & Hid & Hb & He & Ht & Hcore)].
      - exists []. rewrite Hid. split; [|reflexivity].
        rewrite <- (app_nil_l (lit "channel:" ++ id)).
        apply (trim_sandwich [] (lit "channel:") id eq_refl Hb).
        exists 0x63, (lit "hannel:"). repeat split.
      - exists (b ++ core). rewrite Hcore. split.
        + rewrite Hid.
          replace (lit "channel:" ++ b ++ core ++ e)
            with ([] ++ (lit "channel:" ++ b ++ core) ++ e)
            by (simpl; now rewrite <- !app_assoc).
          apply (trim_sandwich [] _ e eq_refl He).
          apply (tight_extend 0x63 (lit "hannel:") b core eq_refl Ht).
        + rewrite <- (app_nil_r (b ++ core)), <- app_assoc.
          apply (trim_sandwich b core [] Hb eq_refl Ht). }
    destruct Htrim as (rest & Hrest & Heq).
    unfold extractChannelId. rewrite Hrest, startsWith_app.
    simpl slice_from. now rewrite Heq. }
  split; [exact Hpre|].
  intros s Hs.
  pose proof (tight_trim s (snowflake_tight s Hs)) as Htrim.
  assert (Hself : extractChannelId s = Some s).
  { unfold extractChannelId. rewrite Htrim.
    destruct (startsWith s (lit "channel:")) eqn:Hp.
    - exfalso. apply (snowflake_no_prefix s Hs), startsWith_inv, Hp.
    - now rewrite (proj2 (isSnowflake_spec s) Hs). }
  split; [exact Hself|].
  now rewrite Hpre, Hself, Htrim.
Qed.

(** X3.  A resolved channel id never starts or ends with whitespace, and
    an id resolved from an address without the prefix is a snowflake. *)
Theorem extractChannelId_result_shape (to cid : str) :
  extractChannelId to = Some cid ->
  trim cid = cid /\ (~ has_channel_prefix (trim to) -> snowflake cid).
Proof.
  unfold extractChannelId.
  destruct (startsWith (trim to) (lit "channel:")) eqn:Hp.
  - intros [= <-]. split; [apply trim_idempotent|].
    intros Hno. exfalso. apply Hno, startsWith_inv, Hp.
  - destruct (isSnowflake (trim to)) eqn:Hs; [|discriminate].
    intros [= <-]. split; [apply trim_idempotent|].
    intros _. now apply isSnowflake_spec.
Qed.

(** X3 at a padded snowflake. *)
Lemma extractChannelId_result_shape_witness :
  trim (lit "123456789012345678") = lit "123456789012345678"
  /\ (~ has_channel_prefix (trim (lit " 123456789012345678 ")) ->
      snowflake (lit "123456789012345678")).
Proof.
  exact (extractChannelId_result_shape (lit " 123456789012345678 ")
           (lit "123456789012345678") eq_refl).
Defined.

(* ================================================================== *)
(** * Further properties: webhook configuration lookup *)
(* ================================================================== *)

Lemma configures_functional (g : GuildConfig) (cid u u' : str) :
  configures g cid u -> configures g cid u' -> u = u'.
Proof.
  intros (chans & cc & Hc & Hd & Hw & _) (chans' & cc' & Hc' & Hd' & Hw' & _).
  congruence.
Qed.

(** One turn of the loop: the guild answers, or the loop moves on. *)
Lemma resolveWebhookUrl_loop_step (g : GuildConfig) (rest : list GuildConfig)
    (cid : str) :
  (exists u, configures g cid u
             /\ resolveWebhookUrl_loop (g :: rest) cid = Some u)
  \/ ((forall u, ~ configures g cid u)
      /\ resolveWebhookUrl_loop (g :: rest) cid = resolveWebhookUrl_loop rest cid).
Proof.
  simpl. destruct (channels g) as [chans|] eqn:Hc.
  2:{ right. split; [|reflexivity].
      intros u (chans' & cc & Hc' & _). congruence. }
  destruct (dict_get chans cid) as [cc|] eqn:Hd.
  2:{ right. split; [|reflexivity].
      intros u (chans' & cc & Hc' & Hd' & _). congruence. }
  destruct (webhook cc) as [[|ch w]|] eqn:Hw; simpl.
  - right. split; [|reflexivity].
    intros u (chans' & cc' & Hc' & Hd' & Hw' & Hne).
    assert (cc' = cc) by congruence. subst cc'. congruence.
  - left. exists (ch :: w). split; [|reflexivity].
    exists chans, cc. repeat split; auto. discriminate.
  - right. split; [|reflexivity].
    intros u (chans' & cc' & Hc' & Hd' & Hw' & Hne).
    assert (cc' = cc) by congruence. subst cc'. congruence.
Qed.

Lemma resolveWebhookUrl_loop_first (gs : list GuildConfig) (cid url : str) :
  resolveWebhookUrl_loop gs cid = Some url
  <-> exists pre g post,
        gs = pre ++ g :: post
        /\ (forall g' u, In g' pre -> ~ configures g' cid u)
        /\ configures g cid url.
Proof.
  induction gs as [|g gs IH].
  - split; [discriminate|]. intros (pre & g & post & H & _).
    destruct pre; discriminate H.
  - destruct (resolveWebhookUrl_loop_step g gs cid) as [(u & Hu & ->)|(Hno & ->)].
    + split.
      * intros [= ->]. exists [], g, gs. repeat split; auto; intros g' u' [].
      * intros (pre & g0 & post & Hgs & Hpre & Hg0).
        destruct pre as [|p pre]; simpl in Hgs; injection Hgs as Hg Hrest.
        -- subst g0 post. f_equal. eapply configures_functional; eauto.
        -- subst p. exfalso. apply (Hpre g u); [now left|exact Hu].
    + rewrite IH. split.
      * intros (pre & g0 & post & -> & Hpre & Hg0).
        exists (g :: pre), g0, post. repeat split; auto.
        intros g' u [<-|Hin]; [apply Hno|now apply Hpre].
      * intros (pre & g0 & post & Hgs & Hpre & Hg0).
        destruct pre as [|p pre]; simpl in Hgs; injection Hgs as Hg Hrest.
        -- subst g0. now destruct (Hno url).
        -- exists pre, g0, post. repeat split; auto.
           intros g' u Hin. apply Hpre. now right.
Qed.

Example lookup_first_guild_wins :
  resolveWebhookUrl
    {| cfg_channels := Some {| discord := Some {| guilds := Some
         [(lit "1", {| channels := Some [(lit "7", {| webhook := Some [] |})] |});
          (lit "2", {| channels := None |});
          (lit "3", {| channels := Some [(lit "7", {| webhook := Some (lit "A") |})] |});
          (lit "4", {| channels := Some [(lit "7", {| webhook := Some (lit "B") |})] |})]
       |} |} |}
    (lit "7")
  = Some (lit "A").
Proof. reflexivity. Qed.

(** X4.  The lookup returns the webhook of the first guild, in the order
    the guilds are enumerated, that configures a non-empty webhook for the
    channel; guilds without channels, without the channel, or with an
    empty webhook are passed over.  It returns nothing exactly when no
    guild configures one, so a returned endpoint is never empty. *)
Theorem resolveWebhookUrl_first_match (c : OpenClawConfig) (cid : str) :
  (forall url,
     resolveWebhookUrl c cid = Some url
     <-> exists gs pre g post,
           cfg_guilds c = Some gs
           /\ map snd gs = pre ++ g :: post
           /\ (forall g' u, In g' pre -> ~ configures g' cid u)
           /\ configures g cid url)
  /\ (resolveWebhookUrl c cid = None
      <-> forall gs g u, cfg_guilds c = Some gs -> In g (map snd gs) ->
                         ~ configures g cid u)
  /\ (forall url, resolveWebhookUrl c cid = Some url -> url <> []).
Proof.
  assert (Hsome : forall url,
             resolveWebhookUrl c cid = Some url
             <-> exists gs pre g post,
                   cfg_guilds c = Some gs
                   /\ map snd gs = pre ++ g :: post
                   /\ (forall g' u, In g' pre -> ~ configures g' cid u)
                   /\ configures g cid url).
  { intros url. unfold resolveWebhookUrl.
    destruct (cfg_guilds c) as [gs|].
    - rewrite resolveWebhookUrl_loop_first. split.
      + intros (pre & g & post & H). exists gs, pre, g, post. tauto.
      + intros (gs' & pre & g & post & [= <-] & H). exists pre, g, post. tauto.
    - split; [discriminate|]. intros (gs' & pre & g & post & H & _).
      discriminate H. }
  split; [exact Hsome|]. split.
  - split.
    + intros Hnone gs g u Hgs Hin Hconf.
      apply in_split in Hin as (l1 & l2 & Hl).
      assert (Hex : exists url, resolveWebhookUrl c cid = Some url).
      { clear Hnone. revert l1 g u l2 Hl Hconf.
        unfold resolveWebhookUrl. rewrite Hgs.
        induction (map snd gs) as [|g0 l IH]; intros l1 g u l2 Hl Hconf.
        - destruct l1; discriminate Hl.
        - destruct (resolveWebhookUrl_loop_step g0 l cid)
            as [(u0 & _ & ->)|(Hno & ->)]; [eauto|].
          destruct l1 as [|x l1]; simpl in Hl; injection Hl as Hg Hrest.
          + subst g0. now destruct (Hno u).
          + eapply IH; eauto. }
      destruct Hex as [url Hurl]. congruence.
    + intros Hall. destruct (resolveWebhookUrl c cid) as [url|] eqn:Hr;
        [|reflexivity].
      destruct (proj1 (Hsome url) eq_refl)
        as (gs & pre & g & post & Hgs & Hl & _ & Hconf).
      exfalso. apply (Hall gs g url Hgs); [|exact Hconf].
      rewrite Hl. apply in_or_app; right; now left.
  - intros url Hr. apply Hsome in Hr as (_ & _ & g & _ & _ & _ & _ & Hconf).
    now destruct Hconf as (_ & _ & _ & _ & _ & Hne).
Qed.

(* ================================================================== *)
(** * Further properties: profile documents *)
(* ================================================================== *)

Lemma split_lines_nonempty (s : str) : exists l ls, split_lines s = l :: ls.
Proof.
  induction s as [|c s (l & ls & IH)]; simpl; [eauto|].
  destruct (c =? 0x0A); [eauto|]. rewrite IH. eauto.
Qed.

Lemma split_lines_app (a b : str) :
  split_lines (a ++ 0x0A :: b) = split_lines a ++ split_lines b.
Proof.
  induction a as [|c a IH]; simpl; [reflexivity|].
  destruct (c =? 0x0A); rewrite IH; [reflexivity|].
  destruct (split_lines_nonempty a) as (l & ls & ->). reflexivity.
Qed.

Lemma split_lines_single (l : str) : ~ In 0x0A l -> split_lines l = [l].
Proof.
  induction l as [|c l IH]; simpl; [reflexivity|].
  intros Hno. destruct (N.eqb_spec c 0x0A) as [->|_].
  - exfalso. apply Hno. now left.
  - rewrite IH; [reflexivity|]. intros Hin; apply Hno; now right.
Qed.

(** What [parseIdentityMd] returns, read off the final state. *)
Lemma parse_result (st : ParseState) (i : AgentIdentity) :
  match st_name st with
  | None => None
  | Some n =>
      if truthy n then
        Some {| name := n; emoji := st_emoji st; creature := st_creature st;
                vibe := st_vibe st; avatar := st_avatar st |}
      else None
  end = Some i ->
  st_name st = Some (name i) /\ name i <> []
  /\ st_emoji st = emoji i /\ st_creature st = creature i
  /\ st_vibe st = vibe i /\ st_avatar st = avatar i.
Proof.
  destruct (st_name st) as [n|]; [|discriminate].
  destruct n as [|c n]; simpl; [discriminate|].
  intros [= <-]; simpl. repeat split; auto. discriminate.
Qed.

Lemma parse_append (content line : str) :
  ~ In 0x0A line ->
  fold_left parse_line (split_lines (content ++ [0x0A] ++ line)) parse_init
  = parse_line (fold_left parse_line (split_lines content) parse_init) line.
Proof.
  intros Hno. simpl app.
  now rewrite split_lines_app, fold_left_app, (split_lines_single line Hno).
Qed.

Example append_overrides_name :
  option_map name
    (parseIdentityMd (Demo.ember_md ++ [0x0A] ++ lit " - **NAME:**  Cinder "))
  = Some (lit "Cinder").
Proof. reflexivity. Qed.

(** X5.  The last occurrence of a field wins, field labels are read in any
    letter case and values are trimmed: appending a recognised line to a
    document that parses to [i] gives [i] with that field replaced by the
    trimmed value, and [i] itself when the label is none of the five. *)
Theorem parseIdentityMd_append_field (content line field value : str)
    (i : AgentIdentity) :
  parseIdentityMd content = Some i ->
  ~ In 0x0A line ->
  matchIdentityLine line = Some (field, value) ->
  (toLowerCase field = lit "name" -> trim value <> []) ->
  parseIdentityMd (content ++ [0x0A] ++ line)
  = Some (with_field i (toLowerCase field) (trim value)).
Proof.
  unfold parseIdentityMd. cbv zeta. intros Hi Hno Hm Hname.
  rewrite (parse_append content line Hno).
  set (st := fold_left parse_line (split_lines content) parse_init) in *.
  apply parse_result in Hi as (Hn & Hne & He & Hc & Hv & Ha).
  unfold parse_line, with_field. rewrite Hm. cbv zeta.
  destruct (str_eqb (toLowerCase field) (lit "name")) eqn:E1.
  { apply str_eqb_eq in E1. specialize (Hname E1). simpl.
    destruct (trim value); [congruence|]. simpl. now rewrite He, Hc, Hv, Ha. }
  destruct (str_eqb (toLowerCase field) (lit "emoji")) eqn:E2.
  { simpl. rewrite Hn. destruct (name i); [congruence|]. simpl.
    now rewrite Hc, Hv, Ha. }
  destruct (str_eqb (toLowerCase field) (lit "creature")) eqn:E3.
  { simpl. rewrite Hn. destruct (name i); [congruence|]. simpl.
    now rewrite He, Hv, Ha. }
  destruct (str_eqb (toLowerCase field) (lit "vibe")) eqn:E4.
  { simpl. rewrite Hn. destruct (name i); [congruence|]. simpl.
    now rewrite He, Hc, Ha. }
  destruct (str_eqb (toLowerCase field) (lit "avatar")) eqn:E5.
  { simpl. rewrite Hn. destruct (name i); [congruence|]. simpl.
    now rewrite He, Hc, Hv. }
  rewrite Hn. destruct i as [n e c v a]; simpl in *.
  destruct n; [congruence|]. simpl. now rewrite He, Hc, Hv, Ha.
Qed.

(** X5 at the Ember profile with a second, upper-case name line. *)
Lemma parseIdentityMd_append_field_witness :
  parseIdentityMd (Demo.ember_md ++ [0x0A] ++ lit " - **NAME:**  Cinder ")
  = Some {| name := lit "Cinder"; emoji := Some Demo.fire; creature := None;
            vibe := Some (lit "warm"); avatar := None |}.
Proof.
  refine (eq_trans
            (parseIdentityMd_append_field Demo.ember_md
               (lit " - **NAME:**  Cinder ") (lit "NAME") (lit "Cinder ")
               {| name := lit "Ember"; emoji := Some Demo.fire; creature := None;
                  vibe := Some (lit "warm"); avatar := None |}
               eq_refl _ eq_refl _) _).
  - intros Hin. vm_compute in Hin.
    repeat (destruct Hin as [Hin|Hin]; [discriminate Hin|]). exact Hin.
  - intros _. discriminate.
  - reflexivity.
Defined.

Lemma parse_line_unrecognised (st : ParseState) (l : str) :
  matchIdentityLine l = None -> parse_line st l = st.
Proof. intros Hm. unfold parse_line. now rewrite Hm. Qed.

(** X6.  A line the pattern does not recognise is ignored: a document
    parses the same with or without it. *)
Theorem parseIdentityMd_ignores_other_lines (a l b : str) :
  ~ In 0x0A l ->
  matchIdentityLine l = None ->
  parseIdentityMd (a ++ [0x0A] ++ l ++ [0x0A] ++ b)
  = parseIdentityMd (a ++ [0x0A] ++ b).
Proof.
  intros Hno Hm.
  assert (H : fold_left parse_line
                (split_lines (a ++ [0x0A] ++ l ++ [0x0A] ++ b)) parse_init
              = fold_left parse_line (split_lines (a ++ [0x0A] ++ b)) parse_init).
  { simpl app.
    rewrite (split_lines_app a (l ++ 0x0A :: b)), (split_lines_app l b),
      (split_lines_app a b), (split_lines_single l Hno), !fold_left_app.
    simpl. now rewrite (parse_line_unrecognised _ l Hm). }
  unfold parseIdentityMd. cbv zeta. now rewrite H.
Qed.

(** X6 with a heading between the name and the emoji. *)
Lemma parseIdentityMd_ignores_other_lines_witness :
  parseIdentityMd (lit "- **Name:** Ember" ++ [0x0A] ++ lit "## About me"
                   ++ [0x0A] ++ lit "- **Emoji:** x")
  = parseIdentityMd (lit "- **Name:** Ember" ++ [0x0A] ++ lit "- **Emoji:** x").
Proof.
  apply (parseIdentityMd_ignores_other_lines (lit "- **Name:** Ember")
           (lit "## About me") (lit "- **Emoji:** x")).
  - intros Hin. vm_compute in Hin.
    repeat (destruct Hin as [Hin|Hin]; [discriminate Hin|]). exact Hin.
  - reflexivity.
Defined.

(* ================================================================== *)
(** * Further properties: the line pattern recognises its lines *)
(* ================================================================== *)

Section RegexComplete.
Context {A : Type}.

Lemma re_star_complete (p : char16 -> bool) (k : str -> option A)
    (pre rest : str) (r : A) :
  forallb p pre = true -> stops p rest -> k rest = Some r ->
  re_star p k (pre ++ rest) = Some r.
Proof.
  intros Hpre Hstop Hk. induction pre as [|c pre IH]; simpl.
  - destruct rest as [|c rest]; simpl in *; [exact Hk|]. now rewrite Hstop.
  - simpl in Hpre. apply andb_prop in Hpre as [Hc Hpre].
    now rewrite Hc, (IH Hpre).
Qed.

Lemma re_more_complete (p : char16 -> bool) (k : str -> str -> option A)
    (pre rest : str) (r : A) :
  forallb p pre = true -> stops p rest ->
  forall acc, k (acc ++ pre) rest = Some r ->
              re_more p k acc (pre ++ rest) = Some r.
Proof.
  intros Hpre Hstop. induction pre as [|c pre IH]; intros acc Hk; simpl.
  - rewrite app_nil_r in Hk.
    destruct rest as [|c rest]; simpl in *; [exact Hk|]. now rewrite Hstop.
  - simpl in Hpre. apply andb_prop in Hpre as [Hc Hpre]. rewrite Hc.
    rewrite (IH Hpre (acc ++ [c])); [reflexivity|].
    now rewrite <- app_assoc.
Qed.

Lemma re_plus_group_complete (p : char16 -> bool) (k : str -> str -> option A)
    (grp rest : str) (r : A) :
  grp <> [] -> forallb p grp = true -> stops p rest ->
  k grp rest = Some r ->
  re_plus_group p k (grp ++ rest) = Some r.
Proof.
  intros Hne Hgrp Hstop Hk. destruct grp as [|c grp]; [congruence|].
  simpl in *. apply andb_prop in Hgrp as [Hc Hgrp]. rewrite Hc.
  now apply re_more_complete.
Qed.

Lemma re_lit_complete (l : str) (k : str -> option A) (rest : str) :
  re_lit l k (l ++ rest) = k rest.
Proof.
  unfold re_lit. rewrite startsWith_app.
  now rewrite skipn_app, skipn_all, Nat.sub_diag.
Qed.

End RegexComplete.

(** X7.  The pattern recognises every line of the documented shape:
    optional whitespace, a dash, optional whitespace, a bold label of word
    characters with its colon, optional whitespace, and a value that
    starts with a visible character and holds no line terminator.  The
    groups are the label and the value up to the end of the line. *)
Theorem matchIdentityLine_recognises (ws1 ws2 ws3 field value : str) :
  blank ws1 -> blank ws2 -> blank ws3 ->
  field <> [] -> forallb isWord field = true ->
  (exists c v, value = c :: v /\ isWhiteSpace c = false) ->
  forallb isDot value = true ->
  matchIdentityLine
    (ws1 ++ lit "-" ++ ws2 ++ lit "**" ++ field ++ lit ":**" ++ ws3 ++ value)
  = Some (field, value).
Proof.
  intros H1 H2 H3 Hf Hfw (c & v & Hv & Hc) Hd.
  unfold matchIdentityLine.
  apply re_star_complete; [exact H1|reflexivity|].
  rewrite re_lit_complete.
  apply re_star_complete; [exact H2|reflexivity|].
  rewrite re_lit_complete.
  apply re_plus_group_complete; [exact Hf|exact Hfw|reflexivity|].
  rewrite re_lit_complete.
  apply re_star_complete; [exact H3|rewrite Hv; exact Hc|].
  rewrite <- (app_nil_r value) at 1.
  apply re_plus_group_complete;
    [rewrite Hv; discriminate|exact Hd|exact I|reflexivity].
Qed.

(** X7 at an indented line with a tab after the label. *)
Lemma matchIdentityLine_recognises_witness :
  matchIdentityLine (lit "  - **Vibe:**" ++ [0x09] ++ lit "warm and kind")
  = Some (lit "Vibe", lit "warm and kind").
Proof.
  exact (matchIdentityLine_recognises (lit "  ") (lit " ") [0x09] (lit "Vibe")
           (lit "warm and kind") eq_refl eq_refl eq_refl
           ltac:(discriminate) eq_refl
           (ex_intro _ 0x77 (ex_intro _ (lit "arm and kind") (conj eq_refl eq_refl)))
           eq_refl).
Defined.

(* ================================================================== *)
(** * Further properties: what a resolved identity looks like *)
(* ================================================================== *)

Lemma parse_line_trimmed (st : ParseState) (line : str) :
  values_trimmed (state_values st) ->
  values_trimmed (state_values (parse_line st line)).
Proof.
  unfold values_trimmed, state_values, parse_line. intros Hst.
  destruct (matchIdentityLine line) as [[field value]|]; [|exact Hst].
  cbv zeta.
  repeat match goal with
         | |- context [if ?b then _ else _] => destruct b
         end;
    simpl; intros v Hin;
    repeat (destruct Hin as [Hin|Hin];
            [first [injection Hin as <-; apply trim_idempotent
                   | apply Hst; simpl; tauto]|]);
    try (now destruct Hin); apply Hst; simpl; tauto.
Qed.

Lemma fold_parse_trimmed (lines : list str) (st : ParseState) :
  values_trimmed (state_values st) ->
  values_trimmed (state_values (fold_left parse_line lines st)).
Proof.
  revert st; induction lines as [|l lines IH]; intros st Hst; simpl;
    [exact Hst|].
  apply IH. now apply parse_line_trimmed.
Qed.

Lemma nonempty_trimmed_tight (s : str) : s <> [] -> trim s = s -> tight s.
Proof.
  intros Hne Ht. destruct (trim_tight_or_empty s) as [H|H]; congruence.
Qed.

Lemma parsed_identity_trimmed (content : str) (i : AgentIdentity) :
  parseIdentityMd content = Some i ->
  tight (name i) /\ values_trimmed (optional_fields i).
Proof.
  unfold parseIdentityMd. cbv zeta. intros Hi.
  pose proof (fold_parse_trimmed (split_lines content) parse_init) as Htr.
  set (st := fold_left parse_line (split_lines content) parse_init) in *.
  assert (Hinit : values_trimmed (state_values parse_init)).
  { intros v Hin. simpl in Hin.
    repeat (destruct Hin as [Hin|Hin]; [discriminate Hin|]). now destruct Hin. }
  specialize (Htr Hinit).
  apply parse_result in Hi as (Hn & Hne & He & Hc & Hv & Ha).
  split.
  - apply nonempty_trimmed_tight; [exact Hne|].
    apply Htr. unfold state_values. rewrite Hn. now left.
  - intros v Hin. apply Htr. unfold state_values, optional_fields in *.
    rewrite He, Hc, Hv, Ha. now right.
Qed.

Lemma display_name_tight (i : AgentIdentity) (o : option str) :
  tight (name i) -> values_trimmed (optional_fields i) ->
  exists u, username (toWebhookIdentity i o) = Some u /\ tight u.
Proof.
  intros Hname Hopt. unfold toWebhookIdentity. simpl.
  destruct (emoji i) as [[|c e]|] eqn:Hem; simpl; eauto.
  eexists. split; [reflexivity|].
  assert (Hte : tight (c :: e)).
  { apply nonempty_trimmed_tight; [discriminate|].
    apply Hopt. unfold optional_fields. rewrite Hem. now left. }
  destruct Hte as (a & m & [= <- <-] & Hc0 & _).
  apply (tight_extend c e (lit " ") (name i) Hc0 Hname).
Qed.

(** X8.  A resolved identity is never blank.  Its name is not empty and
    neither starts nor ends with whitespace, every other field it has is
    trimmed, and the display name derived from it, with or without an
    avatar override, is present, not empty, and neither starts nor ends
    with whitespace. *)
Theorem resolved_identity_never_blank (content : str) (i : AgentIdentity) :
  parseIdentityMd content = Some i ->
  tight (name i)
  /\ values_trimmed (optional_fields i)
  /\ forall o, exists u, username (toWebhookIdentity i o) = Some u /\ tight u.
Proof.
  intros Hi. destruct (parsed_identity_trimmed content i Hi) as [Hname Hopt].
  split; [exact Hname|]. split; [exact Hopt|].
  intros o. now apply display_name_tight.
Qed.

(** X8 at the Ember profile. *)
Lemma resolved_identity_never_blank_witness :
  tight (lit "Ember")
  /\ exists u, username (toWebhookIdentity
                           {| name := lit "Ember"; emoji := Some Demo.fire;
                              creature := None; vibe := Some (lit "warm");
                              avatar := None |} None) = Some u
               /\ tight u.
Proof.
  destruct (resolved_identity_never_blank Demo.ember_md
              {| name := lit "Ember"; emoji := Some Demo.fire; creature := None;
                 vibe := Some (lit "warm"); avatar := None |} eq_refl)
    as (Hname & _ & Huser).
  split; [exact Hname|exact (Huser None)].
Defined.

Lemma resolveWebhookIdentity_default (E : IdentityEnv) (agent : str) :
  resolveWebhookIdentity E agent None
  = inr (match profile_of E agent with
         | Some content =>
             option_map (fun i => toWebhookIdentity i None)
               (parseIdentityMd content)
         | None => None
         end).
Proof.
  unfold resolveWebhookIdentity, resolveAgentIdentityById, resolveWorkspaceDir,
    resolveBase, loadAgentIdentity, profile_of, default_base, nullish,
    try_catch, res_bind.
  destruct (env_HOME E) as [[|c h]|]; simpl;
    match goal with
    | |- context [readFile E ?p] => destruct (readFile E p) as [e|content]
    end; simpl;
    try (destruct (parseIdentityMd content)); reflexivity.
Qed.

(** The display identity the adapter resolves always has a visible name. *)
Lemma resolved_username_tight (E : IdentityEnv) (agent : str) (w : WebhookIdentity) :
  resolveWebhookIdentity E agent None = inr (Some w) ->
  exists u, username w = Some u /\ tight u.
Proof.
  rewrite resolveWebhookIdentity_default.
  destruct (profile_of E agent) as [content|]; [|discriminate].
  destruct (parseIdentityMd content) as [i|] eqn:Hi; [|discriminate].
  simpl. intros [= <-].
  destruct (parsed_identity_trimmed content i Hi) as [Hname Hopt].
  now apply display_name_tight.
Qed.


(* ================================================================== *)
(** * Further properties: media sends that go through *)
(* ================================================================== *)

Lemma post_all_accepted (P : Platform) (failure : str) (reqs : list Request) :
  forall history lastResult,
    all_accepted P history reqs ->
    exists result,
      post_all P failure history reqs lastResult = (inr result, reqs).
Proof.
  induction reqs as [|req reqs IH]; intros history lastResult Hacc; simpl.
  - eauto.
  - apply all_accepted_tail in Hacc as [[j Hj] Hacc].
    assert (Hr : res_bind (fetch P history req) (read_response failure)
                 = inr (result_of_json j)) by (apply read_accepted; eauto).
    rewrite Hr.
    destruct (IH (history ++ [req]) (Some (result_of_json j)) Hacc) as [r ->].
    eauto.
Qed.

Lemma contents_followups (P : Platform) (u : URL P) (opts : WebhookSendOptions)
    (chunks : list str) :
  contents (followup_requests P u opts chunks) = map Some (filter visible chunks).
Proof.
  unfold visible. induction chunks as [|c chunks IH]; simpl; [reflexivity|].
  destruct (truthy (trim c)); simpl; [|exact IH].
  unfold contents in *. simpl. now rewrite IH.
Qed.

Lemma demo_all_accepted home fs (history reqs : list Request) :
  all_accepted (Demo.platform home fs []) history reqs.
Proof. intros pre req post _. apply demo_accepts_all. Qed.

(** X10.  A media send whose calls are all accepted posts the file once,
    with the first chunk of the caption as its content (none when the
    caption is empty), then one text message for each later chunk that
    is not blank, in chunk order, blank chunks being skipped; and it
    returns the result of the file post, not of any follow-up. *)
Theorem media_send_delivers (P : Platform) (text mediaUrl : str)
    (opts : WebhookSendOptions) (tr : Trace) (media : WebMedia) (u : URL P)
    (j : RawMessage) :
  loadWebMedia P mediaUrl = inr media ->
  webhook_endpoint P opts = inr u ->
  let chunks := media_chunks P text opts in
  let freq := file_request P u opts (hd [] chunks) media in
  let followups := followup_requests P u opts (tl chunks) in
  accepted P (requests_of tr) freq j ->
  all_accepted P (requests_of tr ++ [freq]) followups ->
  sendDiscordWebhookMedia P text mediaUrl opts tr
  = (inr (result_of_json j), tr ++ Fetch freq :: map Fetch followups)
  /\ content (request_payload freq)
     = match chunks with
       | c :: _ => if truthy c then Some c else None
       | [] => None
       end
  /\ contents followups = map Some (filter visible (tl chunks))
  /\ Forall (fun r => is_file_post r = false) followups.
Proof.
  intros Hm Hu chunks freq followups Hfile Hacc.
  split; [|split; [|split]].
  - rewrite (sendDiscordWebhookMedia_run P u media text mediaUrl opts tr Hm Hu).
    cbv zeta. fold chunks. fold freq. fold followups.
    assert (Hr : res_bind (fetch P (requests_of tr) freq)
                   (read_response file_failure) = inr (result_of_json j))
      by (apply read_accepted; eauto).
    rewrite Hr.
    destruct (post_all_accepted P text_failure followups
                (requests_of tr ++ [freq]) None Hacc) as [r ->].
    reflexivity.
  - subst freq. destruct chunks; reflexivity.
  - apply contents_followups.
  - eapply Forall_impl; [|apply followup_requests_embeds]. now intros r [H _].
Qed.

(** X10 on the accepting network, with a caption of 4500 letters. *)
Lemma media_send_delivers_witness :
  let run := sendDiscordWebhookMedia (Demo.platform None [] []) (Demo.letters 4500)
               cat_url Demo.plain_opts [] in
  fst run = inr {| messageId := lit "1"; channelId := lit "555" |}
  /\ map is_file_post (requests_of (snd run)) = [true; false; false].
Proof.
  cbv zeta.
  destruct (media_send_delivers (Demo.platform None [] []) (Demo.letters 4500)
              cat_url Demo.plain_opts []
              {| buffer := [Byte.x89; Byte.x50; Byte.x4e; Byte.x47];
                 fileName := Some (lit "cat.png");
                 mimeType := Some (lit "image/png") |}
              (Demo.hook, [(lit "wait", lit "true")])
              {| id := lit "1"; channel_id := lit "555" |}
              eq_refl eq_refl)
    as (Hrun & _).
  - eexists. split; [vm_compute; reflexivity|]. split; reflexivity.
  - apply demo_all_accepted.
  - rewrite Hrun. split; [reflexivity|]. vm_compute. reflexivity.
Defined.

(* ================================================================== *)
(** * Further properties: where the errors of a send come from *)
(* ================================================================== *)

Lemma sent_before_last_accepted (P : Platform) (failure : str)
    (history reqs pre : list Request) (req : Request)
    (lastResult : option WebhookSendResult) :
  snd (post_all P failure history reqs lastResult) = pre ++ [req] ->
  all_accepted P history pre.
Proof.
  intros Hsent p1 r p2 Hpre.
  apply (post_all_sent_accepted P failure reqs history lastResult p1 r
           (p2 ++ [req])).
  - rewrite Hsent, Hpre. now rewrite <- app_assoc.
  - destruct p2; discriminate.
Qed.

(** X11.  A text send throws for one of three reasons only: the text is
    blank (the validation error, before any call), the webhook URL is no
    URL (before any call), or a call failed after every call before it
    was accepted, and then the error is that call's and the call is the
    last thing sent.  The guard against an empty chunk result never
    fires. *)
Theorem text_send_error_sources (P : Platform) (text : str)
    (opts : WebhookSendOptions) (tr : Trace) (e : JsError) :
  fst (sendDiscordWebhookText P text opts tr) = inl e ->
  (trim text = [] /\ e = blank_text_error
   /\ snd (sendDiscordWebhookText P text opts tr) = tr)
  \/ (trim text <> [] /\ webhook_endpoint P opts = inl e
      /\ snd (sendDiscordWebhookText P text opts tr) = tr)
  \/ (exists pre req,
        snd (sendDiscordWebhookText P text opts tr) = tr ++ map Fetch (pre ++ [req])
        /\ all_accepted P (requests_of tr) pre
        /\ call_fails P text_failure (requests_of tr ++ pre) req e).
Proof.
  destruct (list_eq_dec N.eq_dec (trim text) []) as [Hb|Ht].
  { rewrite (sendDiscordWebhookText_blank P text opts tr Hb). simpl.
    intros [= <-]. left. auto. }
  destruct (webhook_endpoint P opts) as [e0|u] eqn:Hu.
  { rewrite (sendDiscordWebhookText_no_endpoint P e0 text opts tr Ht Hu). simpl.
    intros [= <-]. right; left. auto. }
  rewrite (sendDiscordWebhookText_run P u text opts tr Ht Hu).
  set (reqs := text_requests P u opts true
                 (or_whole_text (chunk_text P text opts) text)).
  pose proof (post_all_throws P text_failure reqs (requests_of tr) None) as Hthrow.
  pose proof (post_all_returns P text_failure reqs (requests_of tr) None) as Hret.
  pose proof (fun pre req =>
                sent_before_last_accepted P text_failure (requests_of tr) reqs
                  pre req None) as Hacc.
  assert (Hne : reqs <> []).
  { intros H. apply (f_equal (@List.length _)) in H. unfold reqs in H.
    rewrite text_requests_length in H.
    apply (or_whole_text_nonempty (chunk_text P text opts) text
             (not_blank_truthy _ Ht)).
    now apply length_zero_iff_nil. }
  destruct (post_all P text_failure (requests_of tr) reqs None) as [out sent].
  simpl in *. intros Hout. right; right.
  destruct out as [e1|[r|]].
  - injection Hout as <-.
    destruct (Hthrow e1 eq_refl) as (pre & req & post & _ & Hsent & Hfail).
    exists pre, req.
    split; [now rewrite Hsent|]. split; [exact (Hacc pre req Hsent)|exact Hfail].
  - discriminate Hout.
  - exfalso. destruct (Hret None eq_refl) as [_ Hlast].
    destruct reqs; [congruence|].
    destruct Hlast as (p0 & r0 & j0 & _ & _ & Hnone). discriminate Hnone.
Qed.

(** X11 on the network that refuses its second call. *)
Lemma text_send_error_sources_witness :
  let run := sendDiscordWebhookText flaky (Demo.letters 4500) Demo.plain_opts [] in
  let e := Error (lit "Discord webhook failed (500): boom") in
  (trim (Demo.letters 4500) = [] /\ e = blank_text_error /\ snd run = [])
  \/ (trim (Demo.letters 4500) <> [] /\ webhook_endpoint flaky Demo.plain_opts = inl e
      /\ snd run = [])
  \/ (exists pre req,
        snd run = [] ++ map Fetch (pre ++ [req])
        /\ all_accepted flaky (requests_of []) pre
        /\ call_fails flaky text_failure (requests_of [] ++ pre) req e).
Proof.
  cbv zeta.
  apply (text_send_error_sources flaky (Demo.letters 4500) Demo.plain_opts []).
  vm_compute. reflexivity.
Defined.

(** X12.  A media send throws for one of four reasons only: the media
    cannot be loaded, the webhook URL is no URL (both before any call),
    the file post failed (and is the only call made), or a follow-up
    failed after the file post and the follow-ups before it were accepted
    (and is the last call made).  In each case the error is the one of
    the step that failed. *)
Theorem media_send_error_sources (P : Platform) (text mediaUrl : str)
    (opts : WebhookSendOptions) (tr : Trace) (e : JsError) :
  fst (sendDiscordWebhookMedia P text mediaUrl opts tr) = inl e ->
  (loadWebMedia P mediaUrl = inl e
   /\ snd (sendDiscordWebhookMedia P text mediaUrl opts tr) = tr)
  \/ (webhook_endpoint P opts = inl e
      /\ snd (sendDiscordWebhookMedia P text mediaUrl opts tr) = tr)
  \/ (exists media u,
        loadWebMedia P mediaUrl = inr media /\ webhook_endpoint P opts = inr u
        /\ let freq := file_request P u opts (hd [] (media_chunks P text opts))
                         media in
           (call_fails P file_failure (requests_of tr) freq e
            /\ snd (sendDiscordWebhookMedia P text mediaUrl opts tr)
               = tr ++ [Fetch freq])
           \/ (exists j pre req,
                 accepted P (requests_of tr) freq j
                 /\ all_accepted P (requests_of tr ++ [freq]) pre
                 /\ call_fails P text_failure (requests_of tr ++ freq :: pre) req e
                 /\ snd (sendDiscordWebhookMedia P text mediaUrl opts tr)
                    = tr ++ Fetch freq :: map Fetch (pre ++ [req]))).
Proof.
  destruct (loadWebMedia P mediaUrl) as [e0|media] eqn:Hm.
  { rewrite (sendDiscordWebhookMedia_no_media P e0 _ _ _ _ Hm). simpl.
    intros [= <-]. left. auto. }
  destruct (webhook_endpoint P opts) as [e0|u] eqn:Hu.
  { rewrite (sendDiscordWebhookMedia_no_endpoint P e0 media _ _ _ _ Hm Hu). simpl.
    intros [= <-]. right; left. auto. }
  rewrite (sendDiscordWebhookMedia_run P u media text mediaUrl opts tr Hm Hu).
  cbv zeta.
  set (freq := file_request P u opts (hd [] (media_chunks P text opts)) media).
  set (followups := followup_requests P u opts (tl (media_chunks P text opts))).
  intros Hout. right; right. exists media, u.
  split; [reflexivity|]. split; [reflexivity|]. fold freq.
  destruct (res_bind (fetch P (requests_of tr) freq) (read_response file_failure))
    as [e1|result] eqn:Hfile.
  { left. simpl in Hout. injection Hout as <-. split; [exact Hfile|reflexivity]. }
  right. apply read_accepted in Hfile as (j & Hj & _).
  pose proof (post_all_throws P text_failure followups (requests_of tr ++ [freq])
                None) as Hthrow.
  pose proof (fun pre req =>
                sent_before_last_accepted P text_failure (requests_of tr ++ [freq])
                  followups pre req None) as Hacc.
  destruct (post_all P text_failure (requests_of tr ++ [freq]) followups None)
    as [out sent].
  simpl in *. destruct out as [e1|r]; [|discriminate Hout].
  injection Hout as <-.
  destruct (Hthrow e1 eq_refl) as (pre & req & post & _ & Hsent & Hfail).
  exists j, pre, req.
  split; [exact Hj|]. split; [exact (Hacc pre req Hsent)|].
  split; [|now rewrite Hsent].
  unfold call_fails. now rewrite <- app_assoc in Hfail.
Qed.

(** X12 when the media cannot be loaded. *)
Lemma media_send_error_sources_witness :
  loadWebMedia (Demo.platform None [] []) (lit "ftp://nowhere")
  = inl (External (lit "Failed to fetch media"))
  /\ snd (sendDiscordWebhookMedia (Demo.platform None [] []) (lit "hi")
            (lit "ftp://nowhere") Demo.plain_opts []) = [].
Proof.
  destruct (media_send_error_sources (Demo.platform None [] []) (lit "hi")
              (lit "ftp://nowhere") Demo.plain_opts []
              (External (lit "Failed to fetch media")) eq_refl)
    as [H|[[H _]|(media & u & H & _)]]; [exact H|discriminate H|discriminate H].
Defined.

(* ================================================================== *)
(** * Further properties: one endpoint and one identity per send *)
(* ================================================================== *)

Lemma text_requests_envelope (P : Platform) (u : URL P)
    (opts : WebhookSendOptions) (chunks : list str) :
  forall first,
    Forall (same_envelope P u opts) (text_requests P u opts first chunks).
Proof.
  induction chunks as [|c chunks IH]; intros first; simpl; constructor; auto.
  repeat split.
Qed.

Lemma followup_requests_envelope (P : Platform) (u : URL P)
    (opts : WebhookSendOptions) (chunks : list str) :
  Forall (same_envelope P u opts) (followup_requests P u opts chunks).
Proof.
  induction chunks as [|c chunks IH]; simpl; [constructor|].
  destruct (negb (truthy (trim c))); [exact IH|].
  constructor; [repeat split|exact IH].
Qed.

Lemma text_send_envelope (P : Platform) (u : URL P) (text : str)
    (opts : WebhookSendOptions) (tr : Trace) :
  webhook_endpoint P opts = inr u ->
  exists sent,
    snd (sendDiscordWebhookText P text opts tr) = tr ++ map Fetch sent
    /\ Forall (same_envelope P u opts) sent.
Proof.
  intros Hu.
  destruct (list_eq_dec N.eq_dec (trim text) []) as [Hb|Ht].
  { exists []. rewrite (sendDiscordWebhookText_blank P text opts tr Hb); simpl.
    rewrite app_nil_r. split; [reflexivity|constructor]. }
  rewrite (sendDiscordWebhookText_run P u text opts tr Ht Hu).
  set (chunks := or_whole_text (chunk_text P text opts) text).
  destruct (post_all_prefix P text_failure (text_requests P u opts true chunks)
              (requests_of tr) None) as (k & _ & Hpre).
  destruct (post_all _ _ _ _ _) as [out sent]; simpl in *.
  exists sent. split; [reflexivity|]. subst sent.
  apply Forall_prefix, text_requests_envelope.
Qed.

Lemma media_send_envelope (P : Platform) (u : URL P) (text mediaUrl : str)
    (opts : WebhookSendOptions) (tr : Trace) :
  webhook_endpoint P opts = inr u ->
  exists sent,
    snd (sendDiscordWebhookMedia P text mediaUrl opts tr) = tr ++ map Fetch sent
    /\ Forall (same_envelope P u opts) sent.
Proof.
  intros Hu.
  destruct (loadWebMedia P mediaUrl) as [e|media] eqn:Hm.
  { exists []. rewrite (sendDiscordWebhookMedia_no_media P e _ _ _ _ Hm); simpl.
    rewrite app_nil_r. split; [reflexivity|constructor]. }
  rewrite (sendDiscordWebhookMedia_run P u media text mediaUrl opts tr Hm Hu).
  cbv zeta.
  set (freq := file_request P u opts (hd [] (media_chunks P text opts)) media).
  assert (Hfreq : same_envelope P u opts freq) by (repeat split).
  destruct (res_bind _ _) as [e|result].
  { exists [freq]; simpl. split; [reflexivity|]. now constructor. }
  destruct (post_all_prefix P text_failure
              (followup_requests P u opts (tl (media_chunks P text opts)))
              (requests_of tr ++ [freq]) None) as (k & _ & Hpre).
  destruct (post_all _ _ _ _ _) as [out sent]; simpl in *.
  exists (freq :: sent); simpl. split; [reflexivity|]. subst sent.
  constructor; [exact Hfreq|].
  apply Forall_prefix, followup_requests_envelope.
Qed.

(** X13.  All messages of one send travel alike: every call of a text
    send and every call of a media send, the file post and the follow-ups
    included, goes to the same endpoint URL and carries the same user name
    and avatar, those of the options when they are non-empty strings. *)
Theorem one_envelope_per_send (P : Platform) (u : URL P)
    (opts : WebhookSendOptions) :
  webhook_endpoint P opts = inr u ->
  (forall text tr,
     exists sent,
       snd (sendDiscordWebhookText P text opts tr) = tr ++ map Fetch sent
       /\ Forall (same_envelope P u opts) sent)
  /\ (forall text mediaUrl tr,
        exists sent,
          snd (sendDiscordWebhookMedia P text mediaUrl opts tr)
          = tr ++ map Fetch sent
          /\ Forall (same_envelope P u opts) sent).
Proof.
  intros Hu. split.
  - intros text tr. now apply text_send_envelope.
  - intros text mediaUrl tr. now apply media_send_envelope.
Qed.

(** X13 for a media send with a caption of 4500 letters as Ember. *)
Lemma one_envelope_per_send_witness :
  exists sent,
    snd (sendDiscordWebhookMedia (Demo.platform None [] []) (Demo.letters 4500)
           cat_url
           (webhook_opts Demo.hook
              {| username := Some (lit "Ember"); avatarUrl := None |}) [])
    = [] ++ map Fetch sent
    /\ Forall (same_envelope (Demo.platform None [] [])
                 (Demo.hook, [(lit "wait", lit "true")])
                 (webhook_opts Demo.hook
                    {| username := Some (lit "Ember"); avatarUrl := None |}))
         sent.
Proof.
  exact (proj2 (one_envelope_per_send (Demo.platform None [] [])
                  (Demo.hook, [(lit "wait", lit "true")])
                  (webhook_opts Demo.hook
                     {| username := Some (lit "Ember"); avatarUrl := None |})
                  eq_refl)
           (Demo.letters 4500) cat_url []).
Defined.

(* ================================================================== *)
(** * Further properties: the adapter *)
(* ================================================================== *)





Section Branded.
Context (P : Platform) (url : str) (i : WebhookIdentity) (u : str).
Hypothesis Hname : username i = Some u.
Hypothesis Htight : tight u.

Lemma json_body_branded (c : str) (e : option (list Embed)) :
  (e = None \/ e = embeds (webhook_opts url i)) ->
  branded (JsonPost url (json_body c (with_embeds (webhook_opts url i) e))).
Proof.
  intros He. split.
  - simpl. destruct He as [->| ->]; reflexivity.
  - exists u. split; [|exact Htight].
    simpl. unfold identity_username; simpl. rewrite Hname.
    destruct Htight as (a & m & -> & _). reflexivity.
Qed.

Lemma text_requests_branded (ep : URL P) (chunks : list str) :
  forall first,
    Forall branded (text_requests P ep (webhook_opts url i) first chunks).
Proof.
  induction chunks as [|c chunks IH]; intros first; simpl; constructor; auto.
  destruct (json_body_branded c
              (if first then embeds (webhook_opts url i) else None))
    as [He Hu]; [destruct first; auto|].
  split; [exact He|exact Hu].
Qed.

Lemma followup_requests_branded (ep : URL P) (chunks : list str) :
  Forall branded (followup_requests P ep (webhook_opts url i) chunks).
Proof.
  induction chunks as [|c chunks IH]; simpl; [constructor|].
  destruct (negb (truthy (trim c))); [exact IH|].
  constructor; [|exact IH].
  destruct (json_body_branded c None (or_introl eq_refl)) as [He Hu].
  split; [exact He|exact Hu].
Qed.

Lemma text_send_branded (text : str) (tr : Trace) :
  exists sent,
    snd (sendDiscordWebhookText P text (webhook_opts url i) tr)
    = tr ++ map Fetch sent
    /\ Forall branded sent.
Proof.
  destruct (list_eq_dec N.eq_dec (trim text) []) as [Hb|Ht].
  { exists []. rewrite (sendDiscordWebhookText_blank P text _ tr Hb); simpl.
    rewrite app_nil_r. split; [reflexivity|constructor]. }
  destruct (webhook_endpoint P (webhook_opts url i)) as [e|ep] eqn:Hep.
  { exists [].
    rewrite (sendDiscordWebhookText_no_endpoint P e text _ tr Ht Hep); simpl.
    rewrite app_nil_r. split; [reflexivity|constructor]. }
  rewrite (sendDiscordWebhookText_run P ep text _ tr Ht Hep).
  match goal with
  | |- context [post_all P ?f ?h ?reqs ?l] =>
      destruct (post_all_prefix P f reqs h l) as (k & _ & Hpre);
      destruct (post_all P f h reqs l) as [out sent]
  end.
  simpl in *. exists sent. split; [reflexivity|]. subst sent.
  apply Forall_prefix, text_requests_branded.
Qed.

Lemma media_send_branded (text mediaUrl : str) (tr : Trace) :
  exists sent,
    snd (sendDiscordWebhookMedia P text mediaUrl (webhook_opts url i) tr)
    = tr ++ map Fetch sent
    /\ Forall branded sent.
Proof.
  destruct (loadWebMedia P mediaUrl) as [e|media] eqn:Hm.
  { exists []. rewrite (sendDiscordWebhookMedia_no_media P e _ _ _ _ Hm); simpl.
    rewrite app_nil_r. split; [reflexivity|constructor]. }
  destruct (webhook_endpoint P (webhook_opts url i)) as [e|ep] eqn:Hep.
  { exists [].
    rewrite (sendDiscordWebhookMedia_no_endpoint P e media _ _ _ _ Hm Hep); simpl.
    rewrite app_nil_r. split; [reflexivity|constructor]. }
  rewrite (sendDiscordWebhookMedia_run P ep media text mediaUrl _ tr Hm Hep).
  cbv zeta.
  set (freq := file_request P ep (webhook_opts url i)
                 (hd [] (media_chunks P text (webhook_opts url i))) media).
  assert (Hfreq : branded freq).
  { split; [reflexivity|]. exists u. split; [|exact Htight].
    simpl. unfold identity_username; simpl. rewrite Hname.
    destruct Htight as (a & m & -> & _). reflexivity. }
  destruct (res_bind _ _) as [e|result].
  { exists [freq]; simpl. split; [reflexivity|]. now constructor. }
  match goal with
  | |- context [post_all P ?f ?h ?reqs ?l] =>
      destruct (post_all_prefix P f reqs h l) as (k & _ & Hpre);
      destruct (post_all P f h reqs l) as [out sent]
  end.
  simpl in *. exists (freq :: sent); simpl. split; [reflexivity|]. subst sent.
  constructor; [exact Hfreq|].
  apply Forall_prefix, followup_requests_branded.
Qed.

End Branded.

Lemma requests_of_logs_then_fetches (logs : list Event) (sent : list Request) :
  requests_of logs = [] -> requests_of (logs ++ map Fetch sent) = sent.
Proof.
  intros Hl. now rewrite requests_of_app, Hl, requests_of_fetches.
Qed.

(** X15.  Every webhook message the adapter sends is branded and plain:
    it carries a user name that is present, not empty, and neither starts
    nor ends with whitespace, and it carries no embeds.  The adapter
    builds the options from the endpoint and the resolved identity alone,
    so the follow-ups of its media sends carry no embeds either. *)
Theorem adapter_requests_branded (P : Platform) (ctx : ChannelOutboundContext)
    (tr : Trace) :
  (exists new,
     snd (sendTextWithWebhookFallback P ctx tr) = tr ++ new
     /\ Forall branded (requests_of new))
  /\ (exists new,
        snd (sendMediaWithWebhookFallback P ctx tr) = tr ++ new
        /\ Forall branded (requests_of new)).
Proof.
  split.
  - destruct (text_route P ctx) as [[url i]|] eqn:Hroute.
    + pose proof (proj1 (text_route_spec P ctx url i) Hroute)
        as (cid & agent & _ & _ & _ & _ & _ & Hres).
      destruct (resolved_username_tight _ _ _ Hres) as (u & Hu & Ht).
      rewrite (text_webhook_run P ctx url i tr Hroute).
      match goal with
      | |- context [sendDiscordWebhookText P ?t ?o ?tr1] =>
          destruct (text_send_branded P url i u Hu Ht t tr1) as (sent & Hsent & Hb);
          destruct (sendDiscordWebhookText P t o tr1) as [out tr']
      end.
      simpl in Hsent; subst tr'. rewrite <- app_assoc.
      eexists. split; [reflexivity|].
      rewrite requests_of_logs_then_fetches; [exact Hb|reflexivity].
    + rewrite (text_fallback_run P ctx tr Hroute). cbn [fst snd].
      eexists. split; [reflexivity|].
      rewrite requests_of_app, (logs_no_requests _ (fallback_logs_are_logs ctx)).
      constructor.
  - destruct (media_route P ctx) as [[[url i] m]|] eqn:Hroute.
    + pose proof (proj1 (media_route_spec P ctx url i m) Hroute)
        as ((cid & agent & _ & _ & _ & _ & _ & Hres) & _).
      destruct (resolved_username_tight _ _ _ Hres) as (u & Hu & Ht).
      rewrite (media_webhook_run P ctx url i m tr Hroute).
      match goal with
      | |- context [sendDiscordWebhookMedia P ?t ?mu ?o ?tr1] =>
          destruct (media_send_branded P url i u Hu Ht t mu tr1)
            as (sent & Hsent & Hb);
          destruct (sendDiscordWebhookMedia P t mu o tr1) as [out tr']
      end.
      simpl in Hsent; subst tr'. rewrite <- app_assoc.
      eexists. split; [reflexivity|].
      rewrite requests_of_logs_then_fetches; [exact Hb|reflexivity].
    + rewrite (media_fallback_run P ctx tr Hroute). cbn [fst snd].
      eexists. split; [reflexivity|]. constructor.
Qed.
